(** * Online Normalization: the batch-linearized Control Normalization engine

    A shallow embedding of [online_norm_2d.py] (ControlNorm2DLoop,
    lin_momentum, conv_alongb_w1, mean_tensor, lin_crtl, ControlNorm2D) over
    the real numbers, i.e. under exact arithmetic, and the properties of the
    specification proved about it.

    Tensors of a fixed rank are nested lists in row-major order; a tensor
    whose rank depends on the data (the result of [squeeze()]) carries its
    shape explicitly.  A torch operation that raises is modelled by [None]. *)

From Stdlib Require Import Reals Lra Lia List Arith Bool.
Import ListNotations.

Open Scope R_scope.

(** ** Option monad for operations that may raise *)

Definition bind {A B : Type} (o : option A) (f : A -> option B) : option B :=
  match o with
  | Some a => f a
  | None => None
  end.

Notation "x <- e ;; k" := (bind e (fun x => k))
  (at level 61, e at next level, right associativity).
Notation "' p <- e ;; k" := (bind e (fun p => k))
  (at level 61, p pattern, e at next level, right associativity).

(** ** Tensors *)

Module Tensor.

Abbreviation vec := (list R).
Abbreviation mat := (list (list R)).
Abbreviation t3 := (list (list (list R))).
Abbreviation t4 := (list (list (list (list R)))).

(** A tensor of dynamic rank: its shape and its entries in row-major order. *)
Record tensor := mkT { shape : list nat; data : list R }.

Definition sum_list (l : list R) : R := fold_right Rplus 0 l.

Definition zip_with {A B C : Type} (f : A -> B -> C)
    (l1 : list A) (l2 : list B) : list C :=
  map (fun p => f (fst p) (snd p)) (combine l1 l2).

Definition mat_map (f : R -> R) (a : mat) : mat := map (map f) a.

Definition mat_zip (f : R -> R -> R) (a b : mat) : mat :=
  zip_with (zip_with f) a b.

Definition t4_zip (f : R -> R -> R) (a b : t4) : t4 :=
  zip_with (zip_with (zip_with (zip_with f))) a b.

(** [chunks k n l]: the first [n] consecutive blocks of [k] entries of [l]. *)
Fixpoint chunks {A : Type} (k n : nat) (l : list A) : list (list A) :=
  match n with
  | O => []
  | S n' => firstn k l :: chunks k n' (skipn k l)
  end.

(** [transpose(0, 1)] of a nested list whose rows have equal lengths. *)
Definition transpose {A : Type} (d : A) (x : list (list A)) : list (list A) :=
  map (fun j => map (fun r => nth j r d) x) (seq 0 (length (hd [] x))).

(** [x.unsqueeze(1)] of a 2-D tensor. *)
Definition unsqueeze1 (x : mat) : t3 := map (fun r => [r]) x.

(** [x.unsqueeze(-1).unsqueeze(-1)] of a 2-D tensor: shape (B, C, 1, 1). *)
Definition unsq2 (x : mat) : t4 := map (map (fun s => [[s]])) x.

(** Elementwise [f] of a (B, C, H, W) tensor and a (B, C, 1, 1) tensor,
    the second broadcast along the two spatial axes. *)
Definition bcast_hw (f : R -> R -> R) (x s : t4) : t4 :=
  zip_with (zip_with (fun plane sp =>
    map (map (fun v => f v (hd 0 (hd [] sp)))) plane)) x s.

(** Elementwise [f] of a (C, H, W) tensor and a (C) vector, the second
    broadcast along the two spatial axes. *)
Definition bcast_c (f : R -> R -> R) (x : t3) (s : vec) : t3 :=
  zip_with (fun plane sc => map (map (fun e => f e sc)) plane) x s.

Definition flat3 (x : t3) : list R := concat (concat x).
Definition flat4 (x : t4) : list R := concat (concat (concat x)).

Definition of_mat (x : mat) : tensor :=
  mkT [length x; length (hd [] x)] (concat x).

Definition of_t3 (x : t3) : tensor :=
  mkT [length x; length (hd [] x); length (hd [] (hd [] x))] (flat3 x).

Definition of_t4 (x : t4) : tensor :=
  mkT [length x; length (hd [] x); length (hd [] (hd [] x));
       length (hd [] (hd [] (hd [] x)))] (flat4 x).

(** [t.squeeze()]: every axis of size one is removed. *)
Definition squeeze (t : tensor) : tensor :=
  mkT (filter (fun d => negb (Nat.eqb d 1)) (shape t)) (data t).

(** The rows of a tensor that has exactly two axes; [None] otherwise (where
    torch raises: [transpose(0, 1)] of a tensor with fewer than two axes,
    [torch.cat] of tensors of different ranks). *)
Definition as_mat (t : tensor) : option mat :=
  match shape t with
  | [a; b] => Some (chunks b a (data t))
  | _ => None
  end.

(** [t.t()]: tensors with fewer than two axes are returned as they are. *)
Definition t_ (t : tensor) : option tensor :=
  match shape t with
  | [] | [_] => Some t
  | [a; b] => Some (mkT [b; a] (concat (transpose 0 (chunks b a (data t)))))
  | _ => None
  end.

(** [x.view(a, b)] and [x.view(a, b, c)] of contiguous data. *)
Definition view2 (d : list R) (a b : nat) : option mat :=
  if Nat.eqb (length d) (a * b) then Some (chunks b a d) else None.

Definition view3 (d : list R) (a b c : nat) : option t3 :=
  if Nat.eqb (length d) (a * b * c)
  then Some (map (chunks c b) (chunks (b * c) a d))
  else None.

Definition size2 (x : t4) : nat := length (hd [] (hd [] x)).
Definition size3 (x : t4) : nat := length (hd [] (hd [] (hd [] x))).

(** [torch.sum(x, dim=(2, 3), keepdim=False)]. *)
Definition sum23 (x : t4) : mat :=
  map (map (fun plane => sum_list (concat plane))) x.

(** [torch.nn.functional.conv1d] with one input and one output channel, no
    padding, stride one: a sliding dot product with the kernel. *)
Definition dot (x w : list R) : R := sum_list (zip_with Rmult x w).

Definition conv1d_row (x w : list R) : list R :=
  map (fun j => dot (firstn (length w) (skipn j x)) w)
      (seq 0 (length x + 1 - length w)).

Definition conv1d (input weight : t3) : t3 :=
  map (map (fun row => conv1d_row row (hd [] (hd [] weight)))) input.

End Tensor.

Import Tensor.

(** ** The helper functions shared by both normalizers *)

(** [moments]: per-sample, per-channel spatial mean and biased variance.  The
    mean is computed with [keepdim=True] and then passed through [squeeze()];
    the variance is computed with [keepdim=False]. *)
Definition moments (inputs : t4) : tensor * mat :=
  let n := INR (size2 inputs * size3 inputs) in
  let mu : t4 := map (map (fun plane => [[sum_list (concat plane) / n]])) inputs in
  let mu0 := bcast_hw Rminus inputs mu in
  (squeeze (of_t4 mu),
   mat_map (fun s => s / n) (sum23 (t4_zip Rmult mu0 mu0))).

(** [lin_momentum]: the exponential moving average along the batch axis as a
    convolution.  [mu_curr] is the tensor produced by [moments] (or by
    [mean]), whose rank is only known at run time. *)
Definition lin_momentum (mu_prev : mat) (mu_curr : tensor) (mu_stream : mat)
    (momentum : R) (momentum_pow : t3) (momentum_batch : mat)
    : option (mat * mat) :=
  cur <- as_mat mu_curr ;;
  let input := unsqueeze1 (transpose 0 (tl mu_prev ++ cur)) in
  tmp <- as_mat (squeeze (of_t3 (conv1d input momentum_pow))) ;;
  let tmp := transpose 0 tmp in
  let curr := mat_zip Rplus (mat_zip Rmult momentum_batch mu_stream)
                            (mat_map (fun x => (1 - momentum) * x) tmp) in
  Some ([last mu_stream []] ++ removelast curr, curr).

(** [conv_alongb_w1]: convolution of a (b, 2b, c) tensor along its second
    axis with a vector of [b] ones. *)
Definition conv_alongb_w1 (input : t3) (b c : nat) : option t3 :=
  flat <- view2 (flat3 (transpose [] input)) (2 * b) (length (flat3 input) / (2 * b)) ;;
  let x := unsqueeze1 (transpose 0 flat) in
  let ones := [[map (fun _ => 1) (firstn b (hd [] (hd [] x)))]] in
  tmp <- t_ (squeeze (of_t3 (conv1d x ones))) ;;
  tmp <- view3 (data tmp) (b + 1) b c ;;
  Some (transpose [] tmp).

(** [mean_tensor(input, norm_ax=(2, 3), keepdim=True)]. *)
Definition mean_tensor (input : t4) : t4 :=
  let n := INR (size2 input * size3 input) in
  map (map (fun plane => [[sum_list (concat plane) / n]])) input.

(** The default floor of [lin_crtl] and the floor passed by the backward
    pass of ControlNorm2D. *)
Definition lin_crtl_default_eps : R := / 10 ^ 32.
Definition backward_eps : R := / 10 ^ 5.

(** The circulant window of [lin_crtl]:
    [x.repeat(2 b + 1, 1).view(2 b, 2 b + 1, c)[1:b + 1, :b]]. *)
Definition circulant (x : mat) (b c : nat) : option t3 :=
  r <- view3 (concat (concat (repeat x (2 * b + 1)))) (2 * b) (2 * b + 1) c ;;
  Some (map (firstn b) (firstn b (skipn 1 r))).

(** The clamped decay term and the correlation term of a backward call. *)
Definition lin_crtl_alpha (delta out : t4) (b_size num_features : nat)
    (abkw eps : R) : option mat :=
  e2 <- view2 (flat4 (mean_tensor (t4_zip Rmult out out))) b_size num_features ;;
  let ones := map (map (fun _ : mat => 1)) delta in
  Some (mat_map (fun a => Rmax a eps)
          (mat_zip Rminus ones (mat_map (fun x => (1 - abkw) * x) e2))).

Definition lin_crtl_beta (delta out : t4) (b_size num_features : nat)
    : option mat :=
  view2 (flat4 (mean_tensor (t4_zip Rmult delta out))) b_size num_features.

(** [lin_crtl]: returns the controlled gradient, [v_new] and the new
    [alpha_p] and [beta_p]. *)
Definition lin_crtl (delta out : t4) (b_size num_features : nat)
    (v_p alpha_p beta_p : mat) (abkw eps : R)
    : option (t4 * mat * mat * mat) :=
  alpha <- lin_crtl_alpha delta out b_size num_features abkw eps ;;
  beta <- lin_crtl_beta delta out b_size num_features ;;
  let alpha2log := mat_map ln (alpha_p ++ alpha) in
  let beta2 := beta_p ++ beta in
  alpha2logcir <- circulant alpha2log b_size num_features ;;
  let alpha2logcir2 :=
    map (fun blk => blk ++ map (map (fun _ => 0)) blk) alpha2logcir in
  alpha2logcir2conv <- conv_alongb_w1 alpha2logcir2 b_size num_features ;;
  let weight_d := map (mat_map exp) alpha2logcir2conv in
  beta2cir <- circulant beta2 b_size num_features ;;
  v_p3 <- view3 (concat v_p) b_size 1 num_features ;;
  let v_prev := zip_with (@app vec) v_p3 beta2cir in
  let v_new := map (fun blk => map sum_list (transpose 0 blk))
                   (zip_with (mat_zip Rmult) weight_d v_prev) in
  let vp := [last v_p []] ++ removelast v_new in
  vp4 <- view2 (concat vp) b_size num_features ;;
  Some (t4_zip Rminus delta
          (bcast_hw (fun o s => s * (1 - abkw) * o) out (unsq2 vp4)),
        v_new, alpha, beta).

(** ** Configuration *)

Record config := mkConfig {
  num_features : nat;
  afwd : R;
  abkw : R;
  eps : R;
  b_size : nat
}.

(** ** ControlNorm2DLoop: the sequential reference *)

Module ControlNorm2DLoop.

(** The streaming mean and variance and the two control variables, each of
    shape (C). *)
Record state := mkState { m : vec; var : vec; u : vec; v : vec }.

(** What [forward] saves for [backward]: the output and the scale. *)
Definition ctx : Type := (t4 * mat)%type.

Definition init (cfg : config) : state :=
  {| m := repeat 0 (num_features cfg);
     var := repeat 1 (num_features cfg);
     u := repeat 0 (num_features cfg);
     v := repeat 0 (num_features cfg) |}.

(** [t[idx]] used against a vector of [n] entries: a row of a 2-D tensor, or
    an entry of a 1-D tensor, which broadcasts; indexing a tensor without
    axes raises. *)
Definition row_of (t : tensor) (idx n : nat) : option vec :=
  match shape t with
  | [_; c] => Some (firstn c (skipn (idx * c) (data t)))
  | [_] => Some (repeat (nth idx (data t) 0) n)
  | _ => None
  end.

(** [mean(inputs, dim=(1, 2))] of a (C, H, W) tensor. *)
Definition mean (inputs : t3) : vec :=
  let n := INR (length (hd [] inputs) * length (hd [] (hd [] inputs))) in
  map (fun plane => sum_list (concat plane) / n) inputs.

(** One iteration of the loop of [ControlNormalization.forward]. *)
Definition forward_step (cfg : config) (input : t4) (mu : tensor) (var_ : mat)
    (acc : option (t4 * mat * state)) (idx : nat)
    : option (t4 * mat * state) :=
  '(out, scale, st) <- acc ;;
  mu_idx <- row_of mu idx (length (m st)) ;;
  let scale_idx := map (fun x => sqrt (x + eps cfg)) (var st) in
  let out_idx :=
    bcast_c Rdiv (bcast_c Rminus (nth idx input []) (m st)) scale_idx in
  let d := zip_with Rminus mu_idx (m st) in
  let var' :=
    zip_with Rplus
      (zip_with Rplus (map (fun x => afwd cfg * x) (var st))
                      (map (fun x => (1 - afwd cfg) * x) (nth idx var_ [])))
      (map (fun x => afwd cfg * (1 - afwd cfg) * x ^ 2) d) in
  let m' := zip_with Rplus (m st) (map (fun x => (1 - afwd cfg) * x) d) in
  Some (out ++ [out_idx], scale ++ [scale_idx],
        {| m := m'; var := var'; u := u st; v := v st |}).

Definition normalizer_forward (cfg : config) (st : state) (input : t4)
    : option (t4 * ctx * state) :=
  let '(mu, var_) := moments input in
  '(out, scale, st') <-
     fold_left (forward_step cfg input mu var_) (seq 0 (length input))
               (Some ([], [], st)) ;;
  Some (out, (out, scale), st').

(** One iteration of the loop of [ControlNormalization.backward]. *)
Definition backward_step (cfg : config) (c : ctx) (grad_out : t4)
    (acc : option (t4 * state)) (idx : nat) : option (t4 * state) :=
  '(grad_in, st) <- acc ;;
  let out_idx := nth idx (fst c) [] in
  let grad_v_ctrl :=
    zip_with (zip_with (zip_with Rminus)) (nth idx grad_out [])
      (bcast_c (fun o s => (1 - abkw cfg) * s * o) out_idx (v st)) in
  let v' :=
    zip_with Rplus (v st)
      (mean (zip_with (zip_with (zip_with Rmult)) grad_v_ctrl out_idx)) in
  let grad_scaled := bcast_c Rdiv grad_v_ctrl (nth idx (snd c) []) in
  let grad_in_idx :=
    bcast_c (fun g s => g - (1 - abkw cfg) * s) grad_scaled (u st) in
  let u' := zip_with Rplus (u st) (mean grad_in_idx) in
  Some (grad_in ++ [grad_in_idx],
        {| m := m st; var := var st; u := u'; v := v' |}).

Definition normalizer_backward (cfg : config) (st : state) (c : ctx)
    (grad_out : t4) : option (t4 * state) :=
  fold_left (backward_step cfg c grad_out) (seq 0 (length grad_out))
            (Some ([], st)).

(** [ControlNorm2DLoop.forward]: the training path goes through the
    normalizer; the evaluation path uses the streaming statistics and
    leaves the state as it is. *)
Definition forward (cfg : config) (training : bool) (st : state) (input : t4)
    : option (t4 * option ctx * state) :=
  if training then
    '(out, c, st') <- normalizer_forward cfg st input ;;
    Some (out, Some c, st')
  else
    let stddev := map (fun x => sqrt (x + eps cfg)) (var st) in
    Some (map (fun sample =>
                 bcast_c Rdiv (bcast_c Rminus sample (m st)) stddev) input,
          None, st).

End ControlNorm2DLoop.

(** ** ControlNorm2D: the linearized normalizer *)

Module ControlNorm2D.

(** The registered buffers, each of shape (B, C). *)
Inductive buffer :=
  M | VAR | M_P | VAR_P | U | U_P | V_P | BETA_P | ALPHA_P.

(** The constants built by the first forward call. *)
Record consts := mkConsts {
  af_pow : t3;
  af_batch : mat;
  ab_pow : t3;
  ab_batch : mat
}.

Record state := mkState {
  m : mat; var : mat; m_p : mat; var_p : mat;
  u : mat; u_p : mat; v_p : mat; beta_p : mat; alpha_p : mat;
  cache : option consts
}.

(** What [forward] saves for [backward]: the output and the scale, the
    latter of shape (B, C, 1, 1). *)
Definition ctx : Type := (t4 * t4)%type.

Definition full (b c : nat) (x : R) : mat := repeat (repeat x c) b.

Definition init (cfg : config) : state :=
  let z := full (b_size cfg) (num_features cfg) 0 in
  let o := full (b_size cfg) (num_features cfg) 1 in
  {| m := z; var := o; m_p := z; var_p := o;
     u := z; u_p := z; v_p := z; beta_p := z; alpha_p := o;
     cache := None |}.

(** [__init__] asserts that the batch size is positive. *)
Definition construct (cfg : config) : option state :=
  if (0 <? b_size cfg)%nat then Some (init cfg) else None.

Definition read (b : buffer) (st : state) : mat :=
  match b with
  | M => m st | VAR => var st | M_P => m_p st | VAR_P => var_p st
  | U => u st | U_P => u_p st | V_P => v_p st
  | BETA_P => beta_p st | ALPHA_P => alpha_p st
  end.

Definition write (b : buffer) (x : mat) (st : state) : state :=
  let 'mkState a1 a2 a3 a4 a5 a6 a7 a8 a9 k := st in
  match b with
  | M => mkState x a2 a3 a4 a5 a6 a7 a8 a9 k
  | VAR => mkState a1 x a3 a4 a5 a6 a7 a8 a9 k
  | M_P => mkState a1 a2 x a4 a5 a6 a7 a8 a9 k
  | VAR_P => mkState a1 a2 a3 x a5 a6 a7 a8 a9 k
  | U => mkState a1 a2 a3 a4 x a6 a7 a8 a9 k
  | U_P => mkState a1 a2 a3 a4 a5 x a7 a8 a9 k
  | V_P => mkState a1 a2 a3 a4 a5 a6 x a8 a9 k
  | BETA_P => mkState a1 a2 a3 a4 a5 a6 a7 x a9 k
  | ALPHA_P => mkState a1 a2 a3 a4 a5 a6 a7 a8 x k
  end.

(** The assignments to buffers made by a call, in program order. *)
Definition log : Type := list (buffer * mat).

Definition run_writes (l : log) (st : state) : state :=
  fold_left (fun s w => write (fst w) (snd w) s) l st.

Definition make_consts (cfg : config) : consts :=
  let range_b := rev (seq 0 (b_size cfg)) in
  {| af_pow := [[map (fun k => afwd cfg ^ k) range_b]];
     af_batch := full (b_size cfg) (num_features cfg) (afwd cfg ^ b_size cfg);
     ab_pow := [[map (fun k => abkw cfg ^ k) range_b]];
     ab_batch := full (b_size cfg) (num_features cfg) (abkw cfg ^ b_size cfg) |}.

(** [if self.af_pow is None: ...] at the head of the forward pass. *)
Definition ensure_consts (cfg : config) (st : state) : state :=
  match cache st with
  | Some _ => st
  | None =>
      mkState (m st) (var st) (m_p st) (var_p st) (u st) (u_p st) (v_p st)
              (beta_p st) (alpha_p st) (Some (make_consts cfg))
  end.

(** [mean] of the class; its [moments] is the function of the same name
    above. *)
Definition mean (inputs : t4) : mat :=
  mat_map (fun s => s / INR (size2 inputs * size3 inputs)) (sum23 inputs).

(** [ControlNormalization.forward]: the value returned, the saved context and
    the buffer assignments of lines 420 to 424, or [None] when an operation
    raises (no buffer has been assigned by then). *)
Definition forward_log (cfg : config) (st : state) (input : t4)
    : option (t4 * ctx * log) :=
  k <- cache st ;;
  let momentum := afwd cfg in
  let '(mu, var_) := moments input in
  '(_mu_b, mu_b) <-
     lin_momentum (m_p st) mu (m st) momentum (af_pow k) (af_batch k) ;;
  mu <- as_mat mu ;;
  let var_current :=
    mat_zip Rplus var_
      (mat_map (fun d => momentum * d ^ 2) (mat_zip Rminus mu _mu_b)) in
  '(_var_b, var_b) <-
     lin_momentum (var_p st) (of_mat var_current) (var st) momentum
                  (af_pow k) (af_batch k) ;;
  let scale := unsq2 (mat_map (fun x => sqrt (x + eps cfg)) _var_b) in
  let out := bcast_hw Rdiv (bcast_hw Rminus input (unsq2 _mu_b)) scale in
  Some (out, (out, scale),
        [(M_P, mu); (VAR_P, var_current); (M, mu_b); (VAR, var_b)]).

Definition normalizer_forward (cfg : config) (st : state) (input : t4)
    : state * option (t4 * ctx) :=
  let st := ensure_consts cfg st in
  match forward_log cfg st input with
  | Some (out, c, l) => (run_writes l st, Some (out, c))
  | None => (st, None)
  end.

(** [ControlNormalization.backward]: the buffer assignments made, in program
    order, and the gradient returned, or [None] when an operation raises
    (the assignments of line 438 may have been made by then). *)
Definition backward_log (cfg : config) (st : state) (c : ctx) (grad_in : t4)
    : log * option t4 :=
  let '(out, scale) := c in
  match lin_crtl grad_in out (b_size cfg) (num_features cfg)
                 (v_p st) (alpha_p st) (beta_p st) (abkw cfg) backward_eps with
  | None => ([], None)
  | Some (grad_delta, v_new, alpha, beta) =>
      let l1 := [(V_P, v_new); (ALPHA_P, alpha); (BETA_P, beta)] in
      let grad_delta := bcast_hw Rdiv grad_delta scale in
      let u_tmp := mean grad_delta in
      match (k <- cache st ;;
             lin_momentum (u_p st) (of_mat u_tmp) (u st) (abkw cfg)
                          (ab_pow k) (ab_batch k)) with
      | None => (l1, None)
      | Some (_u_b, u_b) =>
          (l1 ++ [(U_P, u_tmp); (U, u_b)],
           Some (bcast_hw Rminus grad_delta (unsq2 _u_b)))
      end
  end.

Definition normalizer_backward (cfg : config) (st : state) (c : ctx)
    (grad_in : t4) : state * option t4 :=
  let '(l, r) := backward_log cfg st c grad_in in
  (run_writes l st, r).

(** [ControlNorm2D.forward]: the training path goes through the normalizer;
    the evaluation path uses the last row of the mean and variance
    trajectories and leaves the state as it is. *)
Definition forward (cfg : config) (training : bool) (st : state) (input : t4)
    : state * option (t4 * option ctx) :=
  if training then
    let '(st', r) := normalizer_forward cfg st input in
    (st', option_map (fun oc => (fst oc, Some (snd oc))) r)
  else
    let mu := last (m st) [] in
    let stddev := map (fun x => sqrt (x + eps cfg)) (last (var st) []) in
    (st, Some (map (fun sample =>
                      bcast_c Rdiv (bcast_c Rminus sample mu) stddev) input,
               None)).

End ControlNorm2D.

(** ** Vocabulary of the statements *)

(** Lists given by their entries, finite sums and products. *)
Definition mk_vec {A : Type} (n : nat) (f : nat -> A) : list A :=
  map f (seq 0 n).

Definition mk_mat {A : Type} (b c : nat) (f : nat -> nat -> A)
    : list (list A) :=
  mk_vec b (fun i => mk_vec c (f i)).

Definition rsum (n : nat) (f : nat -> R) : R := sum_list (mk_vec n f).

Fixpoint rprod (n : nat) (f : nat -> R) : R :=
  match n with
  | O => 1
  | S n' => rprod n' f * f n'
  end.

(** Entry [(i, c)] of a 2-D tensor and plane [(i, c)] of a 4-D tensor. *)
Definition ent (x : mat) (i c : nat) : R := nth c (nth i x []) 0.
Definition plane (x : t4) (i c : nat) : mat := nth c (nth i x []) [].

(** Sum and mean of the entries of a plane. *)
Definition psum (p : mat) : R := sum_list (concat p).

(** Shapes. *)
Definition shape2 {A : Type} (b c : nat) (x : list (list A)) : Prop :=
  length x = b /\ Forall (fun r => length r = c) x.

Definition shape4 (b c h w : nat) (x : t4) : Prop :=
  shape2 b c x /\ Forall (Forall (shape2 h w)) x.

Definition all_ent (P : R -> Prop) (x : mat) : Prop :=
  Forall (Forall P) x.

(** The raw values seen by one call of [lin_momentum], i.e. the rows of
    [torch.cat([mu_prev[1:], mu_curr])], given entrywise. *)
Definition window (b : nat) (P X : nat -> nat -> R) (n j : nat) : R :=
  if (n <? b - 1)%nat then P (S n) j else X (n - (b - 1))%nat j.

(** The convolution computed by [lin_momentum], entrywise. *)
Definition lm_fresh (b : nat) (rho : R) (P X S : nat -> nat -> R)
    (i j : nat) : R :=
  rho ^ b * S i j +
  (1 - rho) * rsum b (fun t => window b P X (i + t) j * rho ^ (b - 1 - t)).

(** [len] steps of the recurrence [y_n = a n * y_(n-1) + b n], the first of
    them being step [lo]. *)
Fixpoint steps (a b : nat -> R) (lo len : nat) (y : R) : R :=
  match len with
  | O => y
  | S l => a (lo + l)%nat * steps a b lo l y + b (lo + l)%nat
  end.

(** The recurrence unrolled: the product of the decay terms times the seed,
    plus every input times the product of the decay terms after it. *)
Definition unrolled (a b : nat -> R) (n : nat) (y : R) : R :=
  rprod n a * y +
  rsum n (fun k => b k * rprod (n - 1 - k) (fun t => a (k + 1 + t)%nat)).

(** Two consecutive batches of a per-sample quantity: the rows of
    [torch.cat((x_p, x), 0)], given entrywise. *)
Definition cat2 (b : nat) (P X : nat -> nat -> R) (n j : nat) : R :=
  if (n <? b)%nat then P n j else X (n - b)%nat j.

(** The decay and correlation terms of [lin_crtl], entrywise: [n] is the
    number of spatial positions. *)
Definition lc_alpha (abkw eps n : R) (O : nat -> nat -> mat) (i j : nat) : R :=
  Rmax (1 - (1 - abkw) * (psum (mat_zip Rmult (O i j) (O i j)) / n)) eps.

Definition lc_beta (n : R) (G O : nat -> nat -> mat) (i j : nat) : R :=
  psum (mat_zip Rmult (G i j) (O i j)) / n.

(** The weighted sum computed by [lin_crtl] for [v_new], entrywise. *)
Definition lc_weight (b : nat) (A2 : nat -> nat -> R) (i q j : nat) : R :=
  exp (rsum b (fun t =>
         (if (q + t <? b)%nat then ln (A2 (i + 1 + (q + t))%nat j) else 0) * 1)).

Definition lc_vnew (b : nat) (A2 B2 Vp : nat -> nat -> R) (i j : nat) : R :=
  rsum (b + 1) (fun q =>
    lc_weight b A2 i q j *
    (if (q =? 0)%nat then Vp i j else B2 (i + 1 + (q - 1))%nat j)).

(** The value used for sample [i]: the last cached value for the first
    sample, the fresh value of the sample before otherwise. *)
Definition stale (b : nat) (Y F : nat -> nat -> R) (i j : nat) : R :=
  if (i =? 0)%nat then Y (b - 1)%nat j else F (i - 1)%nat j.

(** Spatial mean and biased variance of the planes of a batch: [n] is the
    number of spatial positions. *)
Definition mean_of (n : R) (X : nat -> nat -> mat) (i j : nat) : R :=
  psum (X i j) / n.

Definition var_of (n : R) (X : nat -> nat -> mat) (i j : nat) : R :=
  let d := mat_map (fun e => e - mean_of n X i j) (X i j) in
  psum (mat_zip Rmult d d) / n.

(** The normalized plane [(x - mu) / sigma]. *)
Definition normalize (mu sigma : R) (p : mat) : mat :=
  mat_map (fun e => e / sigma) (mat_map (fun e => e - mu) p).

(** ** The invariants relating the two normalizers *)

(** A cached trajectory [Y] and the cached raw values [P] of the same batch
    are related by the moving-average recurrence. *)
Definition ema_ok (rho : R) (b c : nat) (Y P : mat) : Prop :=
  shape2 b c Y /\ shape2 b c P /\
  forall i j, (S i < b)%nat -> (j < c)%nat ->
    ent Y (S i) j = rho * ent Y i j + (1 - rho) * ent P (S i) j.

(** The cached [v] trajectory and the cached decay and correlation terms are
    related by the control recurrence, and the cached decay is positive. *)
Definition ctl_ok (b c : nat) (V A Bt : mat) : Prop :=
  shape2 b c V /\ shape2 b c A /\ shape2 b c Bt /\
  (forall i j, (i < b)%nat -> (j < c)%nat -> 0 < ent A i j) /\
  forall i j, (S i < b)%nat -> (j < c)%nat ->
    ent V (S i) j = ent A (S i) j * ent V i j + ent Bt (S i) j.

(** The state of the linearized normalizer simulates the state of the
    sequential one: the last rows of the trajectories are the sequential
    statistics (the [u] controller up to the factor [1 - abkw]). *)
Record sim (cfg : config) (st : ControlNorm2D.state)
    (ls : ControlNorm2DLoop.state) : Prop := mkSim {
  sim_m : ema_ok (afwd cfg) (b_size cfg) (num_features cfg)
            (ControlNorm2D.m st) (ControlNorm2D.m_p st);
  sim_var : ema_ok (afwd cfg) (b_size cfg) (num_features cfg)
              (ControlNorm2D.var st) (ControlNorm2D.var_p st);
  sim_u : ema_ok (abkw cfg) (b_size cfg) (num_features cfg)
            (ControlNorm2D.u st) (ControlNorm2D.u_p st);
  sim_v : ctl_ok (b_size cfg) (num_features cfg) (ControlNorm2D.v_p st)
            (ControlNorm2D.alpha_p st) (ControlNorm2D.beta_p st);
  sim_lm : ControlNorm2DLoop.m ls = last (ControlNorm2D.m st) [];
  sim_lvar : ControlNorm2DLoop.var ls = last (ControlNorm2D.var st) [];
  sim_lv : ControlNorm2DLoop.v ls = last (ControlNorm2D.v_p st) [];
  sim_lu : map (fun x => (1 - abkw cfg) * x) (ControlNorm2DLoop.u ls) =
           last (ControlNorm2D.u st) [];
  sim_cache : forall k, ControlNorm2D.cache st = Some k ->
              k = ControlNorm2D.make_consts cfg
}.

(** The second moment [E[out^2]] of every plane of the output, and the
    condition under which the clamp of the backward pass leaves the decay
    term as it is. *)
Definition second_moment (out : t4) : mat :=
  mat_map (fun s => s / INR (size2 out * size3 out))
          (sum23 (t4_zip Rmult out out)).

Definition clamp_inactive (cfg : config) (out : t4) : Prop :=
  all_ent (fun e2 => backward_eps <= 1 - (1 - abkw cfg) * e2)
          (second_moment out).

(** ** The backward loop of ControlNorm2DLoop, entrywise

    [n] is the number of spatial positions, [G] and [O] the planes of the
    incoming gradient and of the saved output, [sc] the saved scale and
    [v0], [u0] the control variables before the call. *)

Section LoopBackwardSeq.

Variables (abkw n : R) (G O : nat -> nat -> mat) (sc : nat -> nat -> R).
Variables (v0 u0 : nat -> R).

Definition loop_gvc (v : R) (i j : nat) : mat :=
  mat_zip Rminus (G i j) (mat_map (fun o => (1 - abkw) * v * o) (O i j)).

(** The [v] controller before sample [i]. *)
Fixpoint loop_v (i j : nat) : R :=
  match i with
  | 0%nat => v0 j
  | S k => loop_v k j +
           psum (mat_zip Rmult (loop_gvc (loop_v k j) k j) (O k j)) / n
  end.

Definition loop_gs (i j : nat) : mat :=
  mat_map (fun e => e / sc i j) (loop_gvc (loop_v i j) i j).

(** The [u] controller before sample [i]. *)
Fixpoint loop_u (i j : nat) : R :=
  match i with
  | 0%nat => u0 j
  | S k => loop_u k j +
           psum (mat_map (fun g => g - (1 - abkw) * loop_u k j)
                         (loop_gs k j)) / n
  end.

Definition loop_gin (i j : nat) : mat :=
  mat_map (fun g => g - (1 - abkw) * loop_u i j) (loop_gs i j).

End LoopBackwardSeq.

(** ** Training runs

    One training step is a training-mode forward call followed by the
    matching backward call; a run feeds a list of (input, gradient) batches
    and collects the normalized outputs and the propagated gradients. *)

Definition lin_step (cfg : config) (st : ControlNorm2D.state)
    (xg : t4 * t4) : ControlNorm2D.state * option (t4 * t4) :=
  let '(st1, r) := ControlNorm2D.forward cfg true st (fst xg) in
  match r with
  | Some (out, Some c) =>
      let '(st2, r2) := ControlNorm2D.normalizer_backward cfg st1 c (snd xg) in
      (st2, option_map (fun gi => (out, gi)) r2)
  | _ => (st1, None)
  end.

Fixpoint lin_run (cfg : config) (st : ControlNorm2D.state)
    (batches : list (t4 * t4)) : option (list (t4 * t4)) :=
  match batches with
  | [] => Some []
  | xg :: rest =>
      match lin_step cfg st xg with
      | (st', Some og) => option_map (cons og) (lin_run cfg st' rest)
      | (_, None) => None
      end
  end.

Definition loop_step (cfg : config) (ls : ControlNorm2DLoop.state)
    (xg : t4 * t4) : option (t4 * t4 * ControlNorm2DLoop.state) :=
  r <- ControlNorm2DLoop.forward cfg true ls (fst xg) ;;
  match r with
  | (out, Some c, ls1) =>
      '(gi, ls2) <- ControlNorm2DLoop.normalizer_backward cfg ls1 c (snd xg) ;;
      Some (out, gi, ls2)
  | _ => None
  end.

Fixpoint loop_run (cfg : config) (ls : ControlNorm2DLoop.state)
    (batches : list (t4 * t4)) : option (list (t4 * t4)) :=
  match batches with
  | [] => Some []
  | xg :: rest =>
      '(out, gi, ls') <- loop_step cfg ls xg ;;
      option_map (cons (out, gi)) (loop_run cfg ls' rest)
  end.

(** The clamp of the backward pass stays inactive along a run. *)
Fixpoint run_clamp_inactive (cfg : config) (st : ControlNorm2D.state)
    (batches : list (t4 * t4)) : Prop :=
  match batches with
  | [] => True
  | xg :: rest =>
      match lin_step cfg st xg with
      | (st', Some (out, _)) =>
          clamp_inactive cfg out /\ run_clamp_inactive cfg st' rest
      | (_, None) => False
      end
  end.

(** The shape of every batch of a run. *)
Definition batches_shape (cfg : config) (h w : nat)
    (batches : list (t4 * t4)) : Prop :=
  Forall (fun xg => shape4 (b_size cfg) (num_features cfg) h w (fst xg) /\
                    shape4 (b_size cfg) (num_features cfg) h w (snd xg))
         batches.

(** ** Reachable states *)

(** The states reached from construction by training-mode forward calls on
    inputs of the configured shape. *)
Inductive fwd_reachable (cfg : config) : ControlNorm2D.state -> Prop :=
| fwd_init : fwd_reachable cfg (ControlNorm2D.init cfg)
| fwd_call (st : ControlNorm2D.state) (x : t4) (h w : nat) :
    fwd_reachable cfg st -> (0 < h)%nat -> (0 < w)%nat ->
    shape4 (b_size cfg) (num_features cfg) h w x ->
    fwd_reachable cfg (fst (ControlNorm2D.forward cfg true st x)).

(** The states reached from construction by training-mode forward calls and
    backward calls, in any order and on any arguments. *)
Inductive reachable (cfg : config) : ControlNorm2D.state -> Prop :=
| reach_init : reachable cfg (ControlNorm2D.init cfg)
| reach_forward (st : ControlNorm2D.state) (x : t4) :
    reachable cfg st ->
    reachable cfg (fst (ControlNorm2D.forward cfg true st x))
| reach_backward (st : ControlNorm2D.state) (c : ControlNorm2D.ctx) (g : t4) :
    reachable cfg st ->
    reachable cfg (fst (ControlNorm2D.normalizer_backward cfg st c g)).

(** The invariant of the forward pass: shapes, the cache, and non-negative
    variance buffers. *)
Definition var_inv (cfg : config) (st : ControlNorm2D.state) : Prop :=
  shape2 (b_size cfg) (num_features cfg) (ControlNorm2D.m st) /\
  shape2 (b_size cfg) (num_features cfg) (ControlNorm2D.m_p st) /\
  shape2 (b_size cfg) (num_features cfg) (ControlNorm2D.var st) /\
  shape2 (b_size cfg) (num_features cfg) (ControlNorm2D.var_p st) /\
  (forall k, ControlNorm2D.cache st = Some k -> k = ControlNorm2D.make_consts cfg) /\
  (forall i j, 0 <= ent (ControlNorm2D.var st) i j) /\
  (forall i j, 0 <= ent (ControlNorm2D.var_p st) i j).

(** ** Concrete configurations and batches *)

(** B = 2, C = 2, H = W = 1. *)
Definition cfg_w : config := mkConfig 2 (1 / 2) (9 / 10) (5 / 4) 2.
Definition x_w : t4 := [[[[3]]; [[0]]]; [[[5 / 2]]; [[0]]]].
Definition g_w : t4 := [[[[1]]; [[2]]]; [[[3]]; [[4]]]].

(** B = 3, C = 2, H = W = 1: the second sample drives the decay term of
    the backward pass below the floor. *)
Definition cfg_x : config := mkConfig 2 (1 / 2) (1 / 2) (5 / 4) 3.
Definition x_x : t4 :=
  [[[[3]]; [[0]]]; [[[25 / 4]]; [[0]]]; [[[27 / 4]]; [[0]]]].
Definition g_x : t4 := [[[[1]]; [[0]]]; [[[0]]; [[0]]]; [[[0]]; [[0]]]].

(** The scenario of the specification: C = 2, B = 4, H = W = 1, both decay
    rates 0.9, eps = 1e-5, every sample with channel values (1, 2). *)
Definition cfg_s : config := mkConfig 2 (9 / 10) (9 / 10) (/ 10 ^ 5) 4.
Definition x_s : t4 := repeat [[[1]]; [[2]]] 4.

(** B = 1, C = 2 with the default decay rates, and one sample. *)
Definition cfg_1 : config := mkConfig 2 (999 / 1000) (99 / 100) (/ 10 ^ 5) 1.
Definition x_1 : t4 := [[[[1]]; [[2]]]].

(** The state after one forward and one backward call. *)
Definition st_w : ControlNorm2D.state :=
  fst (ControlNorm2D.normalizer_backward cfg_w
         (fst (ControlNorm2D.forward cfg_w true (ControlNorm2D.init cfg_w) x_w))
         (x_w, g_w) g_w).

(** ** Lists given by their entries *)

Section MkVec.

Context {A : Type}.

Lemma length_mk_vec (n : nat) (f : nat -> A) : length (mk_vec n f) = n.
Proof. unfold mk_vec. now rewrite length_map, length_seq. Qed.

Lemma nth_mk_vec (n : nat) (f : nat -> A) (i : nat) (d : A) :
  (i < n)%nat -> nth i (mk_vec n f) d = f i.
Proof.
  intros Hi. unfold mk_vec.
  rewrite (nth_indep _ d (f 0%nat)) by now rewrite length_map, length_seq.
  rewrite map_nth, seq_nth by assumption. reflexivity.
Qed.

Lemma mk_vec_ext (n : nat) (f g : nat -> A) :
  (forall i, (i < n)%nat -> f i = g i) -> mk_vec n f = mk_vec n g.
Proof.
  intros H. unfold mk_vec. apply map_ext_in.
  intros i Hi. apply in_seq in Hi. apply H. lia.
Qed.

Lemma mk_vec_eta (d : A) (l : list A) :
  l = mk_vec (length l) (fun i => nth i l d).
Proof.
  apply (nth_ext _ _ d d).
  - now rewrite length_mk_vec.
  - intros i Hi. now rewrite nth_mk_vec.
Qed.

Lemma mk_vec_S (n : nat) (f : nat -> A) :
  mk_vec (S n) f = mk_vec n f ++ [f n].
Proof. unfold mk_vec. now rewrite seq_S, map_app. Qed.

Lemma mk_vec_cons (n : nat) (f : nat -> A) :
  mk_vec (S n) f = f 0%nat :: mk_vec n (fun i => f (S i)).
Proof. unfold mk_vec. simpl. f_equal. now rewrite <- seq_shift, map_map. Qed.

Lemma mk_vec_app (a b : nat) (f g : nat -> A) :
  mk_vec a f ++ mk_vec b g =
  mk_vec (a + b) (fun i => if (i <? a)%nat then f i else g (i - a)%nat).
Proof.
  apply (nth_ext _ _ (f 0%nat) (f 0%nat)).
  - now rewrite length_app, !length_mk_vec.
  - intros i Hi. rewrite length_app, !length_mk_vec in Hi.
    rewrite (nth_mk_vec (a + b)) by assumption.
    destruct (Nat.ltb_spec i a).
    + rewrite app_nth1 by now rewrite length_mk_vec.
      now rewrite nth_mk_vec.
    + rewrite app_nth2 by now rewrite length_mk_vec.
      rewrite length_mk_vec, nth_mk_vec by lia. reflexivity.
Qed.

Lemma firstn_mk_vec (k n : nat) (f : nat -> A) :
  (k <= n)%nat -> firstn k (mk_vec n f) = mk_vec k f.
Proof.
  intros Hk. unfold mk_vec. rewrite firstn_map. f_equal.
  replace n with (k + (n - k))%nat by lia.
  rewrite seq_app, firstn_app, length_seq, Nat.sub_diag, firstn_O, app_nil_r.
  apply firstn_all2. now rewrite length_seq.
Qed.

Lemma skipn_mk_vec (k n : nat) (f : nat -> A) :
  skipn k (mk_vec n f) = mk_vec (n - k) (fun i => f (k + i)%nat).
Proof.
  apply (nth_ext _ _ (f 0%nat) (f 0%nat)).
  - now rewrite length_skipn, !length_mk_vec.
  - intros i Hi. rewrite length_skipn, length_mk_vec in Hi.
    rewrite nth_skipn, !nth_mk_vec by lia. reflexivity.
Qed.

Lemma tl_mk_vec (n : nat) (f : nat -> A) :
  tl (mk_vec n f) = mk_vec (n - 1) (fun i => f (S i)).
Proof.
  destruct n; [reflexivity|]. rewrite mk_vec_cons. simpl.
  now rewrite Nat.sub_0_r.
Qed.

Lemma hd_mk_vec (n : nat) (f : nat -> A) (d : A) :
  (0 < n)%nat -> hd d (mk_vec n f) = f 0%nat.
Proof. intros H. destruct n; [lia|]. now rewrite mk_vec_cons. Qed.

Lemma last_mk_vec (n : nat) (f : nat -> A) (d : A) :
  last (mk_vec (S n) f) d = f n.
Proof. now rewrite mk_vec_S, last_last. Qed.

Lemma removelast_mk_vec (n : nat) (f : nat -> A) :
  removelast (mk_vec (S n) f) = mk_vec n f.
Proof. now rewrite mk_vec_S, removelast_last. Qed.

Lemma repeat_mk_vec (n : nat) (x : A) : repeat x n = mk_vec n (fun _ => x).
Proof.
  induction n as [|n IH]; [reflexivity|].
  rewrite mk_vec_cons. simpl. now rewrite IH.
Qed.

End MkVec.

Lemma map_mk_vec {A B : Type} (g : A -> B) (n : nat) (f : nat -> A) :
  map g (mk_vec n f) = mk_vec n (fun i => g (f i)).
Proof. unfold mk_vec. now rewrite map_map. Qed.

Lemma zip_with_map {A B C A' B' : Type} (g : A -> B -> C)
    (fa : A' -> A) (fb : B' -> B) (l1 : list A') (l2 : list B') :
  zip_with g (map fa l1) (map fb l2) =
  zip_with (fun x y => g (fa x) (fb y)) l1 l2.
Proof.
  unfold zip_with. revert l2.
  induction l1 as [|x l1 IH]; intros [|y l2]; simpl; try reflexivity.
  now rewrite IH.
Qed.

Lemma zip_with_diag {A C : Type} (g : A -> A -> C) (l : list A) :
  zip_with g l l = map (fun x => g x x) l.
Proof.
  unfold zip_with. induction l as [|x l IH]; [reflexivity|].
  simpl. now rewrite IH.
Qed.

Lemma zip_with_mk_vec {A B C : Type} (g : A -> B -> C) (n : nat)
    (a : nat -> A) (b : nat -> B) :
  zip_with g (mk_vec n a) (mk_vec n b) = mk_vec n (fun i => g (a i) (b i)).
Proof. unfold mk_vec. now rewrite zip_with_map, zip_with_diag. Qed.

Lemma length_zip_with {A B C : Type} (g : A -> B -> C)
    (l1 : list A) (l2 : list B) :
  length (zip_with g l1 l2) = Nat.min (length l1) (length l2).
Proof. unfold zip_with. now rewrite length_map, length_combine. Qed.

(** ** Blocks, concatenation and transposition *)

Lemma mk_mat_ext {A : Type} (b c : nat) (f g : nat -> nat -> A) :
  (forall i j, (i < b)%nat -> (j < c)%nat -> f i j = g i j) ->
  mk_mat b c f = mk_mat b c g.
Proof.
  intros H. apply mk_vec_ext. intros i Hi.
  apply mk_vec_ext. intros j Hj. now apply H.
Qed.

Lemma shape2_mk_mat {A : Type} (b c : nat) (f : nat -> nat -> A) :
  shape2 b c (mk_mat b c f).
Proof.
  unfold shape2. split; [apply length_mk_vec|].
  unfold mk_mat, mk_vec at 1. apply Forall_map, Forall_forall.
  intros i _. apply length_mk_vec.
Qed.

Lemma shape2_nth {A : Type} (b c : nat) (x : list (list A)) (i : nat) :
  shape2 b c x -> (i < b)%nat -> length (nth i x []) = c.
Proof.
  intros [Hl Hr] Hi. rewrite Forall_forall in Hr.
  apply Hr, nth_In. lia.
Qed.

Lemma mk_mat_eta {A : Type} (d : A) (b c : nat) (x : list (list A)) :
  shape2 b c x -> x = mk_mat b c (fun i j => nth j (nth i x []) d).
Proof.
  intros Hs. rewrite (mk_vec_eta [] x) at 1.
  rewrite (proj1 Hs). apply mk_vec_ext. intros i Hi.
  rewrite (mk_vec_eta d (nth i x [])) at 1.
  now rewrite (shape2_nth b c x i Hs Hi).
Qed.

Lemma nth_mk_mat {A : Type} (b c : nat) (f : nat -> nat -> A)
    (i j : nat) (d : A) :
  (i < b)%nat -> (j < c)%nat -> nth j (nth i (mk_mat b c f) []) d = f i j.
Proof.
  intros Hi Hj. unfold mk_mat. now rewrite nth_mk_vec, nth_mk_vec.
Qed.

Lemma chunks_concat {A : Type} (k : nat) (rows : list (list A)) :
  Forall (fun r => length r = k) rows ->
  chunks k (length rows) (concat rows) = rows.
Proof.
  induction 1 as [|r rows Hr _ IH]; [reflexivity|].
  simpl. rewrite firstn_app, skipn_app, Hr, Nat.sub_diag.
  rewrite firstn_O, app_nil_r, skipn_O.
  rewrite firstn_all2, skipn_all2 by lia. simpl. now rewrite IH.
Qed.

Lemma length_concat_uniform {A : Type} (k : nat) (rows : list (list A)) :
  Forall (fun r => length r = k) rows ->
  length (concat rows) = (length rows * k)%nat.
Proof.
  induction 1 as [|r rows Hr _ IH]; [reflexivity|].
  simpl. rewrite length_app, IH, Hr. reflexivity.
Qed.

Lemma nth_concat_uniform {A : Type} (k : nat) (rows : list (list A))
    (i j : nat) (d : A) :
  Forall (fun r => length r = k) rows -> (j < k)%nat ->
  nth (i * k + j) (concat rows) d = nth j (nth i rows []) d.
Proof.
  intros H Hj. revert i.
  induction H as [|r rows Hr _ IH]; intros i.
  - simpl. destruct (i * k + j)%nat, i, j; reflexivity.
  - destruct i as [|i]; simpl.
    + now rewrite app_nth1 by lia.
    + rewrite app_nth2 by lia. rewrite <- IH. f_equal. lia.
Qed.

Lemma chunks_mk_vec {A : Type} (k n : nat) (g : nat -> A) :
  chunks k n (mk_vec (n * k) g) =
  mk_mat n k (fun i j => g (i * k + j)%nat).
Proof.
  revert g. induction n as [|n IH]; intros g; [reflexivity|].
  simpl chunks. rewrite firstn_mk_vec, skipn_mk_vec by lia.
  replace (k + n * k - k)%nat with (n * k)%nat by lia.
  rewrite IH. unfold mk_mat. rewrite (mk_vec_cons n). f_equal.
  apply mk_vec_ext. intros i _. apply mk_vec_ext. intros j _.
  f_equal. lia.
Qed.

Lemma length_chunks {A : Type} (k n : nat) (l : list A) :
  length (chunks k n l) = n.
Proof. revert l. induction n; intros l; simpl; [|rewrite IHn]; reflexivity. Qed.

Lemma transpose_mk_mat {A : Type} (d : A) (b c : nat) (f : nat -> nat -> A) :
  (0 < b)%nat ->
  transpose d (mk_mat b c f) = mk_mat c b (fun j i => f i j).
Proof.
  intros Hb. unfold transpose, mk_mat.
  rewrite hd_mk_vec, length_mk_vec by assumption.
  change (map ?g (seq 0 c)) with (mk_vec c g).
  apply mk_vec_ext. intros j Hj. rewrite map_mk_vec.
  apply mk_vec_ext. intros i Hi. now rewrite nth_mk_vec.
Qed.

Lemma concat_singletons {A : Type} (l : list A) :
  concat (map (fun x => [x]) l) = l.
Proof. induction l as [|x l IH]; [reflexivity|]. simpl. now rewrite IH. Qed.

(** ** Finite sums and products *)

Lemma rsum_0 (f : nat -> R) : rsum 0 f = 0.
Proof. reflexivity. Qed.

Lemma rsum_cons (n : nat) (f : nat -> R) :
  rsum (S n) f = f 0%nat + rsum n (fun i => f (S i)).
Proof. unfold rsum. now rewrite mk_vec_cons. Qed.

Lemma sum_list_app (l1 l2 : list R) :
  sum_list (l1 ++ l2) = sum_list l1 + sum_list l2.
Proof.
  induction l1 as [|x l1 IH]; simpl; [lra|]. rewrite IH. lra.
Qed.

Lemma rsum_S (n : nat) (f : nat -> R) : rsum (S n) f = rsum n f + f n.
Proof. unfold rsum. rewrite mk_vec_S, sum_list_app. simpl. lra. Qed.

Lemma rsum_ext (n : nat) (f g : nat -> R) :
  (forall i, (i < n)%nat -> f i = g i) -> rsum n f = rsum n g.
Proof. intros H. unfold rsum. f_equal. now apply mk_vec_ext. Qed.

Lemma rsum_scal (n : nat) (a : R) (f : nat -> R) :
  rsum n (fun i => a * f i) = a * rsum n f.
Proof.
  induction n as [|n IH]; [rewrite !rsum_0; lra|].
  rewrite !rsum_S, IH. lra.
Qed.

Lemma rsum_rev (n : nat) (f : nat -> R) :
  rsum n f = rsum n (fun i => f (n - 1 - i)%nat).
Proof.
  revert f. induction n as [|n IH]; intros f; [reflexivity|].
  rewrite rsum_S, rsum_cons, IH.
  replace (S n - 1 - 0)%nat with n by lia.
  rewrite Rplus_comm. f_equal. apply rsum_ext. intros i Hi.
  f_equal. lia.
Qed.

Lemma rsum_nonneg (n : nat) (f : nat -> R) :
  (forall i, (i < n)%nat -> 0 <= f i) -> 0 <= rsum n f.
Proof.
  induction n as [|n IH]; intros H; [rewrite rsum_0; lra|].
  rewrite rsum_S. specialize (H n (Nat.lt_succ_diag_r n)) as Hn.
  assert (0 <= rsum n f) by (apply IH; intros; apply H; lia). lra.
Qed.

Lemma rprod_ext (n : nat) (f g : nat -> R) :
  (forall i, (i < n)%nat -> f i = g i) -> rprod n f = rprod n g.
Proof.
  induction n as [|n IH]; intros H; [reflexivity|].
  simpl. rewrite IH, H by (intros; try apply H; lia). reflexivity.
Qed.

Lemma rprod_pos (n : nat) (f : nat -> R) :
  (forall i, (i < n)%nat -> 0 < f i) -> 0 < rprod n f.
Proof.
  induction n as [|n IH]; intros H; simpl; [lra|].
  apply Rmult_lt_0_compat; [apply IH; intros; apply H; lia | apply H; lia].
Qed.

Lemma exp_rsum_ln (n : nat) (f : nat -> R) :
  (forall i, (i < n)%nat -> 0 < f i) ->
  exp (rsum n (fun i => ln (f i))) = rprod n f.
Proof.
  induction n as [|n IH]; intros H.
  - rewrite rsum_0. apply exp_0.
  - rewrite rsum_S, exp_plus, IH by (intros; apply H; lia).
    simpl. rewrite exp_ln by (apply H; lia). reflexivity.
Qed.

(** ** lin_momentum on tensors given by their entries *)

Lemma chunks_concat_mk {A : Type} (b c : nat) (f : nat -> nat -> A) :
  chunks c b (concat (mk_mat b c f)) = mk_mat b c f.
Proof.
  rewrite <- (length_mk_vec b (fun i => mk_vec c (f i))) at 1.
  apply chunks_concat. apply shape2_mk_mat.
Qed.

Lemma as_mat_mk (b c : nat) (f : nat -> nat -> R) :
  as_mat (mkT [b; c] (concat (mk_mat b c f))) = Some (mk_mat b c f).
Proof. unfold as_mat. simpl. now rewrite chunks_concat_mk. Qed.

Lemma of_mat_mk (b c : nat) (f : nat -> nat -> R) :
  (0 < b)%nat -> of_mat (mk_mat b c f) = mkT [b; c] (concat (mk_mat b c f)).
Proof.
  intros Hb. unfold of_mat, mk_mat.
  now rewrite hd_mk_vec, !length_mk_vec.
Qed.

Lemma rev_seq_mk (n : nat) : rev (seq 0 n) = mk_vec n (fun t => (n - 1 - t)%nat).
Proof.
  apply (nth_ext _ _ 0%nat 0%nat).
  - now rewrite length_rev, length_seq, length_mk_vec.
  - intros i Hi. rewrite length_rev, length_seq in Hi.
    rewrite rev_nth, length_seq, seq_nth, nth_mk_vec by (rewrite ?length_seq; lia).
    lia.
Qed.

Lemma conv1d_row_mk (l k : nat) (x w : nat -> R) :
  (k <= l)%nat ->
  conv1d_row (mk_vec l x) (mk_vec k w) =
  mk_vec (l + 1 - k) (fun j => rsum k (fun t => x (j + t)%nat * w t)).
Proof.
  intros Hk. unfold conv1d_row. rewrite !length_mk_vec.
  change (map ?g (seq 0 ?n)) with (mk_vec n g).
  apply mk_vec_ext. intros j Hj.
  rewrite skipn_mk_vec, firstn_mk_vec by lia.
  unfold dot. now rewrite zip_with_mk_vec.
Qed.

Lemma full_mk (b c : nat) (x : R) : ControlNorm2D.full b c x = mk_mat b c (fun _ _ => x).
Proof.
  unfold ControlNorm2D.full, mk_mat. rewrite repeat_mk_vec.
  apply mk_vec_ext. intros i _. apply repeat_mk_vec.
Qed.

Lemma mat_zip_mk (g : R -> R -> R) (b c : nat) (x y : nat -> nat -> R) :
  mat_zip g (mk_mat b c x) (mk_mat b c y) = mk_mat b c (fun i j => g (x i j) (y i j)).
Proof.
  unfold mat_zip, mk_mat. rewrite zip_with_mk_vec.
  apply mk_vec_ext. intros i _. apply zip_with_mk_vec.
Qed.

Lemma mat_map_mk (g : R -> R) (b c : nat) (x : nat -> nat -> R) :
  mat_map g (mk_mat b c x) = mk_mat b c (fun i j => g (x i j)).
Proof.
  unfold mat_map, mk_mat. rewrite map_mk_vec.
  apply mk_vec_ext. intros i _. apply map_mk_vec.
Qed.

Lemma stale_mk {A : Type} (b : nat) (s f : nat -> A) (d : A) :
  (0 < b)%nat ->
  [last (mk_vec b s) d] ++ removelast (mk_vec b f) =
  mk_vec b (fun i => if (i =? 0)%nat then s (b - 1)%nat else f (i - 1)%nat).
Proof.
  intros Hb. destruct b as [|b]; [lia|].
  rewrite last_mk_vec, removelast_mk_vec, mk_vec_cons.
  cbn [app Nat.eqb]. replace (S b - 1)%nat with b by lia. f_equal.
  apply mk_vec_ext. intros i _. cbn [Nat.eqb]. f_equal. lia.
Qed.

Ltac fold_mk_mat :=
  repeat match goal with
  | |- context [mk_vec ?b (fun i => mk_vec ?c (@?f i))] =>
      let t := constr:(mk_mat b c f) in
      let t' := eval cbv beta delta [mk_mat] in t in
      change t' with t
  end.

Lemma lin_momentum_mk (b c : nat) (P X S : nat -> nat -> R) (rho : R) :
  (1 < b)%nat -> (1 < c)%nat ->
  lin_momentum (mk_mat b c P) (mkT [b; c] (concat (mk_mat b c X)))
    (mk_mat b c S) rho [[mk_vec b (fun t => rho ^ (b - 1 - t))]]
    (ControlNorm2D.full b c (rho ^ b)) =
  Some (mk_mat b c (fun i j =>
          if (i =? 0)%nat then S (b - 1)%nat j
          else lm_fresh b rho P X S (i - 1) j),
        mk_mat b c (lm_fresh b rho P X S)).
Proof.
  intros Hb Hc. unfold lin_momentum.
  rewrite as_mat_mk. cbn [bind].
  unfold mk_mat at 1 2. rewrite tl_mk_vec, mk_vec_app.
  replace (b - 1 + b)%nat with (2 * b - 1)%nat by lia.
  rewrite (mk_vec_ext _ _ (fun n => mk_vec c (window b P X n))).
  2:{ intros n Hn. unfold window. destruct (n <? b - 1)%nat; reflexivity. }
  change (mk_vec (2 * b - 1) (fun n => mk_vec c (window b P X n)))
    with (mk_mat (2 * b - 1) c (window b P X)).
  rewrite transpose_mk_mat by lia.
  unfold unsqueeze1, conv1d. cbn [hd].
  unfold mk_mat at 1. rewrite !map_mk_vec. cbn [map].
  rewrite (mk_vec_ext _ _ (fun j => [mk_vec b (fun i =>
             rsum b (fun t => window b P X (i + t) j * rho ^ (b - 1 - t)))])).
  2:{ intros j Hj. rewrite conv1d_row_mk by lia.
      replace (2 * b - 1 + 1 - b)%nat with b by lia. reflexivity. }
  unfold of_t3, squeeze. cbn [shape data].
  rewrite hd_mk_vec, length_mk_vec by lia. cbn [length hd].
  rewrite length_mk_vec.
  unfold flat3. rewrite <- (map_mk_vec (fun r => [r])), concat_singletons.
  cbn [filter].
  replace (c =? 1)%nat with false by (symmetry; apply Nat.eqb_neq; lia).
  replace (b =? 1)%nat with false by (symmetry; apply Nat.eqb_neq; lia).
  cbn [negb Nat.eqb].
  fold_mk_mat.
  rewrite as_mat_mk. cbn [bind].
  rewrite transpose_mk_mat by lia.
  rewrite full_mk, mat_map_mk, !mat_zip_mk.
  f_equal. f_equal.
  unfold mk_mat. rewrite stale_mk by lia.
  apply mk_vec_ext. intros i Hi.
  destruct (i =? 0)%nat; reflexivity.
Qed.

(** ** The circulant window and conv_alongb_w1 on tensors given by their entries *)

Lemma concat_repeat_mk {A : Type} (n l : nat) (f : nat -> A) :
  concat (repeat (mk_vec l f) n) = mk_vec (n * l) (fun q => f (q mod l)%nat).
Proof.
  induction n as [|n IH]; [reflexivity|].
  cbn [repeat concat]. rewrite IH, mk_vec_app.
  replace (l + n * l)%nat with (S n * l)%nat by lia.
  apply mk_vec_ext. intros q Hq.
  destruct (Nat.ltb_spec q l) as [H | H].
  - now rewrite Nat.mod_small.
  - f_equal. replace q with ((q - l) + 1 * l)%nat at 2 by lia.
    now rewrite Nat.Div0.mod_add.
Qed.

Lemma firstn_concat_uniform {A : Type} (k c : nat) (rows : list (list A)) :
  Forall (fun r => length r = c) rows ->
  firstn (k * c) (concat rows) = concat (firstn k rows).
Proof.
  intros H. revert k. induction H as [|r rows Hr _ IH]; intros k.
  - now rewrite !firstn_nil.
  - destruct k as [|k]; [reflexivity|].
    cbn [concat firstn]. rewrite firstn_app, Hr.
    replace (S k * c - c)%nat with (k * c)%nat by lia.
    rewrite IH, firstn_all2 by lia. reflexivity.
Qed.

Lemma skipn_concat_uniform {A : Type} (k c : nat) (rows : list (list A)) :
  Forall (fun r => length r = c) rows ->
  skipn (k * c) (concat rows) = concat (skipn k rows).
Proof.
  intros H. revert k. induction H as [|r rows Hr _ IH]; intros k.
  - now rewrite !skipn_nil.
  - destruct k as [|k]; [reflexivity|].
    cbn [concat skipn]. rewrite skipn_app, Hr.
    replace (S k * c - c)%nat with (k * c)%nat by lia.
    rewrite IH, skipn_all2 by lia. reflexivity.
Qed.

Lemma Forall_firstn {A : Type} (P : A -> Prop) (n : nat) (l : list A) :
  Forall P l -> Forall P (firstn n l).
Proof.
  intros H. rewrite <- (firstn_skipn n l) in H.
  now apply Forall_app in H.
Qed.

Lemma Forall_skipn {A : Type} (P : A -> Prop) (n : nat) (l : list A) :
  Forall P l -> Forall P (skipn n l).
Proof.
  intros H. rewrite <- (firstn_skipn n l) in H.
  now apply Forall_app in H.
Qed.

Lemma view_rows {A : Type} (a k c : nat) (rows : list (list A)) :
  Forall (fun r => length r = c) rows -> length rows = (a * k)%nat ->
  map (chunks c k) (chunks (k * c) a (concat rows)) = chunks k a rows.
Proof.
  revert rows. induction a as [|a IH]; intros rows Hr Hl; [reflexivity|].
  cbn [chunks map].
  rewrite firstn_concat_uniform, skipn_concat_uniform by assumption.
  rewrite IH.
  - f_equal.
    replace k with (length (firstn k rows)) at 1
      by (rewrite length_firstn; lia).
    apply chunks_concat. now apply Forall_firstn.
  - now apply Forall_skipn.
  - rewrite length_skipn. lia.
Qed.

Lemma view3_rows (a k c : nat) (rows : mat) :
  Forall (fun r => length r = c) rows -> length rows = (a * k)%nat ->
  view3 (concat rows) a k c = Some (chunks k a rows).
Proof.
  intros Hr Hl. unfold view3.
  rewrite (length_concat_uniform c rows Hr), Hl.
  rewrite Nat.eqb_refl. now rewrite view_rows.
Qed.

Lemma Forall_mk_vec {A : Type} (P : A -> Prop) (n : nat) (f : nat -> A) :
  (forall i, (i < n)%nat -> P (f i)) -> Forall P (mk_vec n f).
Proof.
  intros H. unfold mk_vec. apply Forall_map, Forall_forall.
  intros i Hi. apply in_seq in Hi. apply H. lia.
Qed.

Lemma circulant_mk (b c : nat) (A : nat -> nat -> R) :
  (0 < b)%nat ->
  circulant (mk_mat (2 * b) c A) b c =
  Some (mk_vec b (fun i => mk_mat b c (fun s j => A (i + 1 + s)%nat j))).
Proof.
  intros Hb. unfold circulant, mk_mat at 1.
  rewrite concat_repeat_mk.
  rewrite (view3_rows (2 * b) (2 * b + 1) c).
  2:{ apply Forall_mk_vec. intros. apply length_mk_vec. }
  2:{ rewrite length_mk_vec. lia. }
  cbn [bind]. f_equal.
  replace ((2 * b + 1) * (2 * b))%nat with (2 * b * (2 * b + 1))%nat by lia.
  rewrite chunks_mk_vec. unfold mk_mat.
  change (skipn 1 ?l) with (tl l). rewrite tl_mk_vec, firstn_mk_vec by lia.
  rewrite map_mk_vec. apply mk_vec_ext. intros i Hi.
  rewrite firstn_mk_vec by lia. apply mk_vec_ext. intros s Hs.
  apply mk_vec_ext. intros j Hj. f_equal.
  replace (S i * (2 * b + 1) + s)%nat with (i + 1 + s + S i * (2 * b))%nat by lia.
  rewrite Nat.Div0.mod_add. apply Nat.mod_small. lia.
Qed.

Lemma length_concat_mk {A : Type} (b c : nat) (f : nat -> nat -> A) :
  length (concat (mk_mat b c f)) = (b * c)%nat.
Proof.
  rewrite (length_concat_uniform c) by apply shape2_mk_mat.
  unfold mk_mat. now rewrite length_mk_vec.
Qed.

Lemma nth_concat_mk {A : Type} (b c : nat) (f : nat -> nat -> A)
    (i j : nat) (d : A) :
  (i < b)%nat -> (j < c)%nat ->
  nth (i * c + j) (concat (mk_mat b c f)) d = f i j.
Proof.
  intros Hi Hj. rewrite (nth_concat_uniform c) by (apply shape2_mk_mat || assumption).
  now apply nth_mk_mat.
Qed.

Lemma concat_concat_map {A : Type} (l : list (list (list A))) :
  concat (concat l) = concat (map (@concat A) l).
Proof.
  induction l as [|x l IH]; [reflexivity|].
  cbn [concat map]. now rewrite concat_app, IH.
Qed.

Lemma squeeze_t_data (n m : nat) (f : nat -> nat -> R) :
  (0 < n)%nat -> (1 < m)%nat ->
  exists t', t_ (squeeze (mkT [n; 1%nat; m] (concat (mk_mat n m f)))) = Some t' /\
             data t' = concat (mk_mat m n (fun j q => f q j)).
Proof.
  intros Hn Hm. unfold squeeze. cbn [shape data filter Nat.eqb negb].
  replace (m =? 1)%nat with false by (symmetry; apply Nat.eqb_neq; lia).
  destruct (Nat.eqb_spec n 1) as [-> | Hn1]; cbn [negb].
  - eexists. split; [reflexivity|]. cbn [data].
    unfold mk_mat. rewrite (mk_vec_cons 0). cbn [mk_vec seq map concat].
    rewrite app_nil_r.
    rewrite <- (map_mk_vec (fun x => [x]) m (fun j => f 0%nat j)).
    now rewrite concat_singletons.
  - eexists. split; [reflexivity|]. cbn [data].
    rewrite chunks_concat_mk, transpose_mk_mat by lia. reflexivity.
Qed.

Lemma conv_alongb_w1_mk (b c : nat) (T : nat -> nat -> nat -> R) :
  (0 < b)%nat -> (0 < c)%nat ->
  conv_alongb_w1 (mk_vec b (fun i => mk_mat (2 * b) c (T i))) b c =
  Some (mk_vec b (fun i => mk_mat (b + 1) c (fun j k =>
          rsum b (fun t => T i (j + t)%nat k * 1)))).
Proof.
  intros Hb Hc. unfold conv_alongb_w1.
  set (row := fun s => concat (mk_mat b c (fun i k => T i s k))).
  assert (Hlen : length (flat3 (mk_vec b (fun i => mk_mat (2 * b) c (T i)))) = (b * c * (2 * b))%nat).
  { unfold flat3. rewrite (length_concat_uniform c).
    - rewrite (length_concat_uniform (2 * b)).
      + rewrite length_mk_vec. lia.
      + apply Forall_mk_vec. intros. apply length_mk_vec.
    - apply Forall_concat, Forall_mk_vec. intros i Hi.
      apply shape2_mk_mat. }
  rewrite Hlen, Nat.div_mul by lia.
  assert (Hflat : flat3 (transpose [] (mk_vec b (fun i => mk_mat (2 * b) c (T i)))) =
                  concat (mk_vec (2 * b) row)).
  { unfold mk_mat at 1.
    change (mk_vec b (fun i => mk_vec (2 * b) (fun s => mk_vec c (T i s))))
      with (mk_mat b (2 * b) (fun i s => mk_vec c (T i s))).
    rewrite transpose_mk_mat by lia. unfold flat3.
    rewrite concat_concat_map. f_equal. unfold mk_mat at 1.
    rewrite map_mk_vec. reflexivity. }
  assert (Hview : view2 (flat3 (transpose [] (mk_vec b (fun i => mk_mat (2 * b) c (T i)))))
                    (2 * b) (b * c) =
                  Some (mk_mat (2 * b) (b * c) (fun s q => nth q (row s) 0))).
  { rewrite Hflat. unfold view2.
    rewrite (length_concat_uniform (b * c)), length_mk_vec.
    2:{ apply Forall_mk_vec. intros. apply length_concat_mk. }
    rewrite Nat.eqb_refl. f_equal.
    rewrite <- (length_mk_vec (2 * b) row) at 1.
    rewrite chunks_concat.
    2:{ apply Forall_mk_vec. intros. apply length_concat_mk. }
    apply mk_vec_ext. intros s Hs. rewrite (mk_vec_eta 0 (row s)) at 1.
    unfold row at 1. now rewrite length_concat_mk. }
  rewrite Hview. cbn [bind]. rewrite transpose_mk_mat by lia.
  assert (Hbc : (0 < b * c)%nat) by nia.
  unfold unsqueeze1, conv1d. cbn [hd].
  unfold mk_mat. rewrite !map_mk_vec. cbn [map].
  rewrite !hd_mk_vec by lia. cbn [hd].
  rewrite firstn_mk_vec, map_mk_vec by lia.
  rewrite (mk_vec_ext _ _ (fun q => [mk_vec (b + 1) (fun j =>
             rsum b (fun t => nth q (row (j + t)%nat) 0 * 1))])).
  2:{ intros q Hq. rewrite conv1d_row_mk by lia.
      replace (2 * b + 1 - b)%nat with (b + 1)%nat by lia. reflexivity. }
  unfold of_t3. rewrite hd_mk_vec, length_mk_vec by lia. cbn [length hd].
  rewrite length_mk_vec. unfold flat3.
  rewrite <- (map_mk_vec (fun r => [r])), concat_singletons.
  fold_mk_mat.
  destruct (squeeze_t_data (b * c) (b + 1)
              (fun q j => rsum b (fun t => nth q (row (j + t)%nat) 0 * 1)))
    as (t' & Ht & Hd); [lia | lia |].
  rewrite Ht. cbn [bind]. rewrite Hd.
  unfold view3. rewrite length_concat_mk.
  replace ((b + 1) * (b * c) =? (b + 1) * b * c)%nat with true
    by (symmetry; apply Nat.eqb_eq; lia).
  cbn [bind]. rewrite chunks_concat_mk.
  unfold mk_mat at 1. rewrite map_mk_vec.
  rewrite (mk_vec_ext _ _ (fun j => mk_vec b (fun i => mk_vec c (fun k =>
             rsum b (fun t => T i (j + t)%nat k * 1))))).
  2:{ intros j Hj. rewrite chunks_mk_vec. apply mk_mat_ext. intros i k Hi Hk.
      apply rsum_ext. intros t Ht'. f_equal.
      unfold row. now rewrite nth_concat_mk by assumption. }
  fold_mk_mat. now rewrite transpose_mk_mat by lia.
Qed.

(** ** lin_crtl on tensors given by their entries *)

Lemma flat4_unsq2 (x : mat) : flat4 (unsq2 x) = concat x.
Proof.
  unfold flat4, unsq2. induction x as [|r x IH]; [reflexivity|].
  cbn [map concat]. rewrite !concat_app, IH. f_equal.
  clear. induction r as [|a r IH]; [reflexivity|].
  cbn [map concat app]. now rewrite IH.
Qed.

Lemma view2_concat_mk (b c : nat) (f : nat -> nat -> R) :
  view2 (concat (mk_mat b c f)) b c = Some (mk_mat b c f).
Proof.
  unfold view2. rewrite length_concat_mk, Nat.eqb_refl.
  now rewrite chunks_concat_mk.
Qed.

Lemma size_mk (b c h w : nat) (Z : nat -> nat -> mat) :
  (0 < b)%nat -> (0 < c)%nat -> shape2 h w (Z 0%nat 0%nat) ->
  (size2 (mk_mat b c Z) * size3 (mk_mat b c Z))%nat = (h * w)%nat.
Proof.
  intros Hb Hc [Hl Hr]. unfold size2, size3, mk_mat.
  rewrite !hd_mk_vec by assumption. rewrite Hl.
  destruct (Z 0%nat 0%nat) as [|r p]; cbn [hd length] in *.
  - subst h. reflexivity.
  - inversion Hr; subst. reflexivity.
Qed.

Lemma mean_tensor_mk (b c h w : nat) (Z : nat -> nat -> mat) :
  (0 < b)%nat -> (0 < c)%nat -> shape2 h w (Z 0%nat 0%nat) ->
  mean_tensor (mk_mat b c Z) =
  unsq2 (mk_mat b c (fun i j => psum (Z i j) / INR (h * w))).
Proof.
  intros Hb Hc Hs. unfold mean_tensor.
  rewrite (size_mk b c h w) by assumption.
  unfold unsq2, mk_mat. rewrite !map_mk_vec.
  apply mk_vec_ext. intros i _. now rewrite !map_mk_vec.
Qed.

Lemma t4_zip_mk (f : R -> R -> R) (b c : nat) (X Y : nat -> nat -> mat) :
  t4_zip f (mk_mat b c X) (mk_mat b c Y) =
  mk_mat b c (fun i j => mat_zip f (X i j) (Y i j)).
Proof.
  unfold t4_zip, mk_mat. rewrite zip_with_mk_vec.
  apply mk_vec_ext. intros i _. now rewrite zip_with_mk_vec.
Qed.

Lemma bcast_hw_mk (f : R -> R -> R) (b c : nat) (X : nat -> nat -> mat)
    (s : nat -> nat -> R) :
  bcast_hw f (mk_mat b c X) (unsq2 (mk_mat b c s)) =
  mk_mat b c (fun i j => mat_map (fun e => f e (s i j)) (X i j)).
Proof.
  unfold bcast_hw, unsq2, mk_mat. rewrite map_mk_vec, zip_with_mk_vec.
  apply mk_vec_ext. intros i _. now rewrite map_mk_vec, zip_with_mk_vec.
Qed.

Lemma zip_with_cons {A B C : Type} (f : A -> B -> C) (x : A) (y : B)
    (l1 : list A) (l2 : list B) :
  zip_with f (x :: l1) (y :: l2) = f x y :: zip_with f l1 l2.
Proof. reflexivity. Qed.

Lemma shape2_mat_zip (f : R -> R -> R) (h w : nat) (p q : mat) :
  shape2 h w p -> shape2 h w q -> shape2 h w (mat_zip f p q).
Proof.
  intros [Hp Hpr] [Hq Hqr]. unfold shape2, mat_zip. split.
  - rewrite length_zip_with. lia.
  - clear Hp Hq. revert q Hqr.
    induction Hpr as [|r p Hr _ IH]; intros q Hqr; [constructor|].
    destruct Hqr as [|s q Hs Hqr]; [constructor|].
    rewrite zip_with_cons. constructor.
    + rewrite length_zip_with. lia.
    + apply IH, Hqr.
Qed.

Lemma shape2_mat_map (f : R -> R) (h w : nat) (p : mat) :
  shape2 h w p -> shape2 h w (mat_map f p).
Proof.
  intros [Hp Hpr]. unfold shape2, mat_map. split.
  - now rewrite length_map.
  - apply Forall_map. eapply Forall_impl; [|exact Hpr].
    cbn. intros r Hr. now rewrite length_map.
Qed.

Lemma app_mk_mat {A : Type} (a b c : nat) (f g : nat -> nat -> A) :
  mk_mat a c f ++ mk_mat b c g =
  mk_mat (a + b) c (fun i j => if (i <? a)%nat then f i j else g (i - a)%nat j).
Proof.
  unfold mk_mat. rewrite mk_vec_app. apply mk_vec_ext. intros i _.
  destruct (i <? a)%nat; reflexivity.
Qed.

Lemma lin_crtl_alpha_mk (b c h w : nat) (G O : nat -> nat -> mat)
    (abkw eps : R) :
  (0 < b)%nat -> (0 < c)%nat -> shape2 h w (O 0%nat 0%nat) ->
  lin_crtl_alpha (mk_mat b c G) (mk_mat b c O) b c abkw eps =
  Some (mk_mat b c (lc_alpha abkw eps (INR (h * w)) O)).
Proof.
  intros Hb Hc Ho. unfold lin_crtl_alpha.
  rewrite t4_zip_mk, (mean_tensor_mk b c h w), flat4_unsq2, view2_concat_mk;
    try assumption; [|now apply shape2_mat_zip].
  cbn [bind]. f_equal. unfold mk_mat at 1. rewrite map_mk_vec.
  rewrite (mk_vec_ext _ _ (fun i => mk_vec c (fun _ => 1)))
    by (intros; now rewrite map_mk_vec).
  fold_mk_mat. now rewrite mat_map_mk, mat_zip_mk, mat_map_mk.
Qed.

Lemma lin_crtl_beta_mk (b c h w : nat) (G O : nat -> nat -> mat) :
  (0 < b)%nat -> (0 < c)%nat ->
  shape2 h w (G 0%nat 0%nat) -> shape2 h w (O 0%nat 0%nat) ->
  lin_crtl_beta (mk_mat b c G) (mk_mat b c O) b c =
  Some (mk_mat b c (lc_beta (INR (h * w)) G O)).
Proof.
  intros Hb Hc Hg Ho. unfold lin_crtl_beta.
  rewrite t4_zip_mk, (mean_tensor_mk b c h w), flat4_unsq2, view2_concat_mk;
    try assumption; [reflexivity | now apply shape2_mat_zip].
Qed.

Lemma lin_crtl_mk (b c h w : nat) (G O : nat -> nat -> mat)
    (Vp Ap Bp : nat -> nat -> R) (abkw eps : R) :
  (0 < b)%nat -> (0 < c)%nat ->
  shape2 h w (G 0%nat 0%nat) -> shape2 h w (O 0%nat 0%nat) ->
  let al := lc_alpha abkw eps (INR (h * w)) O in
  let be := lc_beta (INR (h * w)) G O in
  let vn := lc_vnew b (cat2 b Ap al) (cat2 b Bp be) Vp in
  lin_crtl (mk_mat b c G) (mk_mat b c O) b c
           (mk_mat b c Vp) (mk_mat b c Ap) (mk_mat b c Bp) abkw eps =
  Some (mk_mat b c (fun i j =>
          mat_zip Rminus (G i j)
            (mat_map (fun o =>
               (if (i =? 0)%nat then Vp (b - 1)%nat j else vn (i - 1)%nat j)
               * (1 - abkw) * o) (O i j))),
        mk_mat b c vn, mk_mat b c al, mk_mat b c be).
Proof.
  intros Hb Hc Hg Ho al be vn. unfold lin_crtl.
  rewrite (lin_crtl_alpha_mk b c h w), (lin_crtl_beta_mk b c h w) by assumption.
  cbn [bind]. fold al be.
  rewrite !app_mk_mat, mat_map_mk.
  replace (b + b)%nat with (2 * b)%nat by lia.
  rewrite !circulant_mk by assumption. cbn [bind].
  rewrite map_mk_vec.
  rewrite (mk_vec_ext _ _ (fun i => mk_mat (2 * b) c (fun s j =>
      if (s <? b)%nat then ln (cat2 b Ap al (i + 1 + s)%nat j) else 0))).
  2:{ intros i Hi. change (map (map ?f) ?x) with (mat_map f x).
      rewrite mat_map_mk, app_mk_mat. replace (b + b)%nat with (2 * b)%nat by lia.
      apply mk_mat_ext. intros s j Hs Hj. unfold cat2.
      destruct (s <? b)%nat; reflexivity. }
  rewrite conv_alongb_w1_mk by assumption. cbn [bind].
  unfold view3. rewrite length_concat_mk.
  replace (b * c =? b * 1 * c)%nat with true by (symmetry; apply Nat.eqb_eq; lia).
  cbn [bind]. replace (1 * c)%nat with c by lia.
  rewrite chunks_concat_mk.
  match goal with
  | |- context [map (fun blk : mat => map sum_list (transpose 0 blk)) ?z] =>
      assert (Hvn : map (fun blk : mat => map sum_list (transpose 0 blk)) z =
                    mk_mat b c vn)
  end.
  { unfold mk_mat.
    rewrite (map_mk_vec (chunks c 1)).
    rewrite (zip_with_mk_vec (@app vec)).
    rewrite (map_mk_vec (mat_map exp)).
    rewrite (zip_with_mk_vec (mat_zip Rmult)).
    rewrite (map_mk_vec (fun blk : mat => map sum_list (transpose 0 blk))).
    apply mk_vec_ext. intros i Hi.
    replace (chunks c 1 (mk_vec c (Vp i))) with (mk_mat 1 c (fun _ j => Vp i j)).
    2:{ cbn [chunks]. rewrite firstn_mk_vec by lia. reflexivity. }
    fold_mk_mat.
    rewrite app_mk_mat, mat_map_mk.
    replace (1 + b)%nat with (b + 1)%nat by lia.
    rewrite mat_zip_mk, transpose_mk_mat by lia.
    unfold mk_mat. rewrite map_mk_vec. apply mk_vec_ext. intros j Hj.
    fold (rsum (b + 1) (fun q => exp (rsum b (fun t =>
            (if (q + t <? b)%nat then ln (cat2 b Ap al (i + 1 + (q + t)) j) else 0) * 1)) *
            (if (q <? 1)%nat then Vp i j
             else if (i + 1 + (q - 1) <? b)%nat then Bp (i + 1 + (q - 1))%nat j
                  else be (i + 1 + (q - 1) - b)%nat j))).
    unfold vn, lc_vnew. apply rsum_ext. intros q Hq.
    unfold lc_weight. f_equal. unfold cat2.
    destruct q as [|q]; reflexivity. }
  rewrite Hvn. unfold mk_mat at 1 2. rewrite stale_mk by lia.
  rewrite (mk_vec_ext _ _ (fun i => mk_vec c (fun j =>
             if (i =? 0)%nat then Vp (b - 1)%nat j else vn (i - 1)%nat j)))
    by (intros i _; destruct (i =? 0)%nat; reflexivity).
  fold_mk_mat. rewrite view2_concat_mk. cbn [bind].
  rewrite bcast_hw_mk, t4_zip_mk. repeat f_equal.
Qed.

(** ** The two convolutions are unrolled recurrences *)

Lemma steps_S (a b : nat -> R) (lo len : nat) (y : R) :
  steps a b lo (S len) y = a (lo + len)%nat * steps a b lo len y + b (lo + len)%nat.
Proof. reflexivity. Qed.

Lemma steps_shift (a b : nat -> R) (lo len : nat) (y : R) :
  steps a b lo (S len) y = steps a b (S lo) len (a lo * y + b lo).
Proof.
  induction len as [|len IH].
  - cbn [steps]. now rewrite Nat.add_0_r.
  - rewrite steps_S, IH. cbn [steps].
    now replace (S lo + len)%nat with (lo + S len)%nat by lia.
Qed.

Lemma steps_app (a b : nat -> R) (lo l1 l2 : nat) (y : R) :
  steps a b lo (l1 + l2) y = steps a b (lo + l1) l2 (steps a b lo l1 y).
Proof.
  induction l2 as [|l2 IH].
  - now rewrite Nat.add_0_r.
  - replace (l1 + S l2)%nat with (S (l1 + l2)) by lia.
    cbn [steps]. rewrite IH.
    now replace (lo + l1 + l2)%nat with (lo + (l1 + l2))%nat by lia.
Qed.

Lemma steps_ext (a b a' b' : nat -> R) (lo len : nat) (y : R) :
  (forall n, (lo <= n < lo + len)%nat -> a n = a' n /\ b n = b' n) ->
  steps a b lo len y = steps a' b' lo len y.
Proof.
  induction len as [|len IH]; intros H; [reflexivity|].
  cbn [steps]. rewrite IH by (intros; apply H; lia).
  destruct (H (lo + len)%nat) as [-> ->]; [lia | reflexivity].
Qed.

Lemma steps_offset (a b : nat -> R) (k lo len : nat) (y : R) :
  steps a b (k + lo) len y =
  steps (fun n => a (k + n)%nat) (fun n => b (k + n)%nat) lo len y.
Proof.
  induction len as [|len IH]; [reflexivity|].
  cbn [steps]. rewrite IH.
  now replace (k + lo + len)%nat with (k + (lo + len))%nat by lia.
Qed.

Lemma rsum_plus (n : nat) (f g : nat -> R) :
  rsum n (fun i => f i + g i) = rsum n f + rsum n g.
Proof.
  induction n as [|n IH]; [rewrite !rsum_0; lra|].
  rewrite !rsum_S, IH. lra.
Qed.

Lemma rsum_zero (n : nat) : rsum n (fun _ => 0) = 0.
Proof. induction n as [|n IH]; [reflexivity|]. rewrite rsum_S, IH. lra. Qed.

Lemma rsum_indicator (n k : nat) (x : R) :
  (k < n)%nat -> rsum n (fun t => if (t =? k)%nat then x else 0) = x.
Proof.
  induction n as [|n IH]; intros Hk; [lia|].
  rewrite rsum_S. destruct (Nat.eqb_spec n k) as [-> | Hne].
  - rewrite (rsum_ext _ _ (fun _ => 0)), rsum_zero; [lra|].
    intros i Hi. destruct (Nat.eqb_spec i k); [lia | reflexivity].
  - rewrite IH by lia. lra.
Qed.

Lemma lm_steps (W : nat -> R) (rho : R) (lo len : nat) (y : R) :
  rho ^ len * y +
  (1 - rho) * rsum len (fun t => W (lo + t)%nat * rho ^ (len - 1 - t)) =
  steps (fun _ => rho) (fun n => (1 - rho) * W n) lo len y.
Proof.
  induction len as [|len IH].
  - rewrite rsum_0. cbn [steps pow]. lra.
  - rewrite steps_S, <- IH, rsum_S.
    rewrite (rsum_ext _ _ (fun t => rho * (W (lo + t)%nat * rho ^ (len - 1 - t)))).
    2:{ intros t Ht. replace (S len - 1 - t)%nat with (S (len - 1 - t)) by lia.
        cbn [pow]. lra. }
    rewrite rsum_scal. replace (S len - 1 - len)%nat with 0%nat by lia.
    cbn [pow]. lra.
Qed.

Lemma lm_fresh_steps (b : nat) (rho : R) (P X S : nat -> nat -> R) (i j : nat) :
  lm_fresh b rho P X S i j =
  steps (fun _ => rho) (fun n => (1 - rho) * window b P X n j) i b (S i j).
Proof. unfold lm_fresh. now rewrite <- lm_steps. Qed.

Section Weights.

Variables (A2 B2 Vp : nat -> nat -> R) (i j : nat).

Lemma lc_weight_S (len q : nat) :
  (q <= len)%nat -> 0 < A2 (i + 1 + len)%nat j ->
  lc_weight (S len) A2 i q j = lc_weight len A2 i q j * A2 (i + 1 + len)%nat j.
Proof.
  intros Hq Ha. unfold lc_weight.
  rewrite (rsum_ext (S len) _ (fun t =>
     (if (q + t <? len)%nat then ln (A2 (i + 1 + (q + t))%nat j) else 0) * 1 +
     (if (t =? len - q)%nat then ln (A2 (i + 1 + len)%nat j) else 0))).
  2:{ intros t Ht.
      destruct (Nat.ltb_spec (q + t) (S len)), (Nat.ltb_spec (q + t) len),
               (Nat.eqb_spec t (len - q)); try lia; try lra.
      replace (q + t)%nat with len by lia. lra. }
  rewrite rsum_plus, rsum_indicator by lia.
  rewrite rsum_S.
  replace (q + len <? len)%nat with false by (symmetry; apply Nat.ltb_ge; lia).
  rewrite exp_plus, exp_ln by assumption. f_equal. f_equal. lra.
Qed.

Lemma lc_weight_diag (len : nat) : lc_weight len A2 i len j = 1.
Proof.
  unfold lc_weight. rewrite (rsum_ext _ _ (fun _ => 0)), rsum_zero.
  - apply exp_0.
  - intros t Ht.
    replace (len + t <? len)%nat with false by (symmetry; apply Nat.ltb_ge; lia).
    lra.
Qed.

Lemma lc_vnew_steps (b : nat) :
  (forall s, (s < b)%nat -> 0 < A2 (i + 1 + s)%nat j) ->
  lc_vnew b A2 B2 Vp i j =
  steps (fun n => A2 n j) (fun n => B2 n j) (i + 1) b (Vp i j).
Proof.
  unfold lc_vnew. induction b as [|len IH]; intros Hpos.
  - cbn [Nat.add]. rewrite rsum_S, rsum_0, lc_weight_diag. cbn. lra.
  - replace (S len + 1)%nat with (S (len + 1)) by lia.
    rewrite rsum_S, steps_S, <- IH by (intros; apply Hpos; lia).
    rewrite <- rsum_scal.
    replace (lc_weight (S len) A2 i (len + 1) j) with 1
      by (replace (len + 1)%nat with (S len) by lia; now rewrite lc_weight_diag).
    replace (len + 1 =? 0)%nat with false by (symmetry; apply Nat.eqb_neq; lia).
    replace (len + 1 - 1)%nat with len by lia.
    rewrite Rmult_1_l. f_equal. apply rsum_ext. intros q Hq.
    rewrite lc_weight_S by (try apply Hpos; lia). lra.
Qed.

End Weights.

Lemma steps_chain (a b : nat -> R) (T : nat -> R) (lo len : nat) :
  (forall n, (n < len)%nat ->
     T (S n) = a (lo + n)%nat * T n + b (lo + n)%nat) ->
  steps a b lo len (T 0%nat) = T len.
Proof.
  induction len as [|len IH]; intros H; [reflexivity|].
  cbn [steps]. rewrite IH by (intros; apply H; lia).
  symmetry. apply H. lia.
Qed.

Lemma steps_scal (k : R) (a b : nat -> R) (lo len : nat) (y : R) :
  steps a (fun n => k * b n) lo len (k * y) = k * steps a b lo len y.
Proof.
  induction len as [|len IH]; [reflexivity|].
  cbn [steps]. rewrite IH. lra.
Qed.

Lemma steps_split (a b : nat -> R) (lo len l1 l2 : nat) (y : R) :
  (l1 + l2 = len)%nat ->
  steps a b lo len y = steps a b (lo + l1) l2 (steps a b lo l1 y).
Proof. intros <-. apply steps_app. Qed.

(** Under the recurrence relating the cached trajectory to the cached raw
    values, the window of [lin_momentum] is the sequential moving average
    continued from the last cached value. *)
Lemma lm_fresh_scan (b : nat) (rho : R) (P X Y : nat -> nat -> R) (i j : nat) :
  (forall n, (S n < b)%nat -> Y (S n) j = rho * Y n j + (1 - rho) * P (S n) j) ->
  (i < b)%nat ->
  lm_fresh b rho P X Y i j =
  steps (fun _ => rho) (fun n => (1 - rho) * X n j) 0 (S i) (Y (b - 1)%nat j).
Proof.
  intros Hok Hi. rewrite lm_fresh_steps.
  rewrite (steps_split _ _ _ _ (b - 1 - i) (S i)) by lia.
  replace (Y i j) with (Y (i + 0)%nat j) by now rewrite Nat.add_0_r.
  rewrite (steps_chain _ _ (fun n => Y (i + n)%nat j)).
  2:{ intros n Hn. replace (i + S n)%nat with (S (i + n)) by lia.
      rewrite Hok by lia. unfold window.
      replace (i + n <? b - 1)%nat with true by (symmetry; apply Nat.ltb_lt; lia).
      reflexivity. }
  replace (i + (b - 1 - i))%nat with (b - 1)%nat by lia.
  replace (b - 1)%nat with (b - 1 + 0)%nat at 1 by lia.
  rewrite steps_offset. apply steps_ext. intros n Hn. split; [reflexivity|].
  unfold window.
  replace (b - 1 + n <? b - 1)%nat with false by (symmetry; apply Nat.ltb_ge; lia).
  now replace (b - 1 + n - (b - 1))%nat with n by lia.
Qed.

Lemma lc_vnew_scan (b : nat) (Ap Bp Vp al be : nat -> nat -> R) (i j : nat) :
  (forall n, (S n < b)%nat -> Vp (S n) j = Ap (S n) j * Vp n j + Bp (S n) j) ->
  (forall n, (n < b)%nat -> 0 < Ap n j) ->
  (forall n, (n < b)%nat -> 0 < al n j) ->
  (i < b)%nat ->
  lc_vnew b (cat2 b Ap al) (cat2 b Bp be) Vp i j =
  steps (fun n => al n j) (fun n => be n j) 0 (S i) (Vp (b - 1)%nat j).
Proof.
  intros Hok Hap Hal Hi. rewrite lc_vnew_steps.
  2:{ intros s Hs. unfold cat2. destruct (Nat.ltb_spec (i + 1 + s) b).
      - now apply Hap.
      - apply Hal. lia. }
  rewrite (steps_split _ _ _ _ (b - 1 - i) (S i)) by lia.
  replace (Vp i j) with (Vp (i + 0)%nat j) by now rewrite Nat.add_0_r.
  rewrite (steps_chain _ _ (fun n => Vp (i + n)%nat j)).
  2:{ intros n Hn. replace (i + S n)%nat with (S (i + n)) by lia.
      rewrite Hok by lia. unfold cat2.
      replace (i + 1 + n <? b)%nat with true by (symmetry; apply Nat.ltb_lt; lia).
      now replace (i + 1 + n)%nat with (S (i + n)) by lia. }
  replace (i + (b - 1 - i))%nat with (b - 1)%nat by lia.
  replace (i + 1 + (b - 1 - i))%nat with (b + 0)%nat by lia.
  rewrite steps_offset. apply steps_ext. intros n Hn. unfold cat2.
  replace (b + n <? b)%nat with false by (symmetry; apply Nat.ltb_ge; lia).
  now replace (b + n - b)%nat with n by lia.
Qed.

(** [lm_fresh] at row [i] reads the current values of rows up to [i] only. *)
Lemma lm_fresh_ext (b : nat) (rho : R) (P X X' Y : nat -> nat -> R) (i j : nat) :
  (forall k, (k <= i)%nat -> X k j = X' k j) ->
  lm_fresh b rho P X Y i j = lm_fresh b rho P X' Y i j.
Proof.
  intros H. unfold lm_fresh. f_equal. f_equal. apply rsum_ext. intros t Ht.
  f_equal. unfold window. destruct (i + t <? b - 1)%nat; [reflexivity|].
  apply H. lia.
Qed.

(** ** moments and the forward pass of ControlNorm2D, entrywise *)

Lemma unsq2_mk (b c : nat) (f : nat -> nat -> R) :
  unsq2 (mk_mat b c f) = mk_mat b c (fun i j => [[f i j]]).
Proof.
  unfold unsq2, mk_mat. rewrite map_mk_vec. apply mk_vec_ext.
  intros i _. now rewrite map_mk_vec.
Qed.

Lemma of_t4_unsq2_mk (b c : nat) (f : nat -> nat -> R) :
  (0 < b)%nat -> (0 < c)%nat ->
  of_t4 (unsq2 (mk_mat b c f)) =
  mkT [b; c; 1%nat; 1%nat] (concat (mk_mat b c f)).
Proof.
  intros Hb Hc. unfold of_t4. rewrite flat4_unsq2, unsq2_mk.
  unfold mk_mat. rewrite !hd_mk_vec, !length_mk_vec by assumption.
  reflexivity.
Qed.

Lemma sum23_mk (b c : nat) (Z : nat -> nat -> mat) :
  sum23 (mk_mat b c Z) = mk_mat b c (fun i j => psum (Z i j)).
Proof.
  unfold sum23, mk_mat. rewrite map_mk_vec. apply mk_vec_ext.
  intros i _. now rewrite map_mk_vec.
Qed.

Lemma moments_mk_gen (b c h w : nat) (X : nat -> nat -> mat) :
  (0 < b)%nat -> (0 < c)%nat -> shape2 h w (X 0%nat 0%nat) ->
  moments (mk_mat b c X) =
  (squeeze (mkT [b; c; 1%nat; 1%nat]
              (concat (mk_mat b c (mean_of (INR (h * w)) X)))),
   mk_mat b c (var_of (INR (h * w)) X)).
Proof.
  intros Hb Hc Hs. unfold moments.
  rewrite (size_mk b c h w) by assumption.
  replace (map (map (fun plane : mat => [[sum_list (concat plane) / INR (h * w)]]))
              (mk_mat b c X))
    with (unsq2 (mk_mat b c (mean_of (INR (h * w)) X))).
  2:{ unfold unsq2, mk_mat. rewrite !map_mk_vec. apply mk_vec_ext.
      intros i _. now rewrite !map_mk_vec. }
  rewrite of_t4_unsq2_mk by assumption. f_equal.
  rewrite bcast_hw_mk, t4_zip_mk, sum23_mk, mat_map_mk. reflexivity.
Qed.

Lemma moments_mk (b c h w : nat) (X : nat -> nat -> mat) :
  (1 < b)%nat -> (1 < c)%nat -> shape2 h w (X 0%nat 0%nat) ->
  moments (mk_mat b c X) =
  (mkT [b; c] (concat (mk_mat b c (mean_of (INR (h * w)) X))),
   mk_mat b c (var_of (INR (h * w)) X)).
Proof.
  intros Hb Hc Hs. rewrite (moments_mk_gen b c h w) by (assumption || lia).
  f_equal. unfold squeeze. cbn [shape data filter Nat.eqb negb].
  replace (b =? 1)%nat with false by (symmetry; apply Nat.eqb_neq; lia).
  replace (c =? 1)%nat with false by (symmetry; apply Nat.eqb_neq; lia).
  reflexivity.
Qed.

Lemma make_consts_af (cfg : config) :
  ControlNorm2D.af_pow (ControlNorm2D.make_consts cfg) =
    [[mk_vec (b_size cfg) (fun t => afwd cfg ^ (b_size cfg - 1 - t))]] /\
  ControlNorm2D.ab_pow (ControlNorm2D.make_consts cfg) =
    [[mk_vec (b_size cfg) (fun t => abkw cfg ^ (b_size cfg - 1 - t))]].
Proof.
  unfold ControlNorm2D.make_consts. cbn.
  now rewrite rev_seq_mk, !map_mk_vec.
Qed.

Import ControlNorm2D.

Section ForwardMk.

Variables (cfg : config) (h w : nat).
Variables (X : nat -> nat -> mat) (Sm Pm Sv Pv : nat -> nat -> R).

Let b := b_size cfg.
Let c := num_features cfg.
Let rho := afwd cfg.
Let n := INR (h * w).
Let mu := mean_of n X.
Let fm := lm_fresh b rho Pm mu Sm.
Let stm := stale b Sm fm.
Let xv := fun i j => var_of n X i j + rho * (mu i j - stm i j) ^ 2.
Let fv := lm_fresh b rho Pv xv Sv.
Let stv := stale b Sv fv.

Lemma forward_log_mk (st : state) :
  (1 < b)%nat -> (1 < c)%nat -> shape2 h w (X 0%nat 0%nat) ->
  cache st = Some (make_consts cfg) ->
  m st = mk_mat b c Sm -> m_p st = mk_mat b c Pm ->
  var st = mk_mat b c Sv -> var_p st = mk_mat b c Pv ->
  let out := mk_mat b c (fun i j =>
               normalize (stm i j) (sqrt (stv i j + eps cfg)) (X i j)) in
  forward_log cfg st (mk_mat b c X) =
  Some (out,
        (out, unsq2 (mk_mat b c (fun i j => sqrt (stv i j + eps cfg)))),
        [(M_P, mk_mat b c mu); (VAR_P, mk_mat b c xv);
         (M, mk_mat b c fm); (VAR, mk_mat b c fv)]).
Proof.
  intros Hb Hc Hs Hk Hm Hmp Hv Hvp out. unfold forward_log.
  rewrite Hk, Hm, Hmp, Hv, Hvp. cbn [bind].
  fold b c.
  rewrite (moments_mk b c h w) by assumption.
  destruct (make_consts_af cfg) as [-> _]. fold b rho.
  replace (af_batch (make_consts cfg)) with (full b c (rho ^ b)) by reflexivity.
  rewrite lin_momentum_mk by assumption. cbn [bind].
  rewrite as_mat_mk. cbn [bind].
  fold n mu. 
  change (mk_mat b c (fun i j => if (i =? 0)%nat then Sm (b - 1)%nat j
                                 else lm_fresh b rho Pm mu Sm (i - 1) j))
    with (mk_mat b c stm).
  rewrite mat_zip_mk, mat_map_mk, mat_zip_mk.
  change (mk_mat b c (fun i j => var_of n X i j + rho * (mu i j - stm i j) ^ 2))
    with (mk_mat b c xv).
  rewrite of_mat_mk by lia.
  rewrite lin_momentum_mk by assumption. cbn [bind].
  change (mk_mat b c (fun i j => if (i =? 0)%nat then Sv (b - 1)%nat j
                                 else lm_fresh b rho Pv xv Sv (i - 1) j))
    with (mk_mat b c stv).
  rewrite mat_map_mk, !bcast_hw_mk. reflexivity.
Qed.

End ForwardMk.

(** ** The forward pass of ControlNorm2DLoop, entrywise *)

Lemma row_of_mk (b c : nat) (f : nat -> nat -> R) (i n : nat) :
  (i < b)%nat ->
  ControlNorm2DLoop.row_of (mkT [b; c] (concat (mk_mat b c f))) i n =
  Some (mk_vec c (f i)).
Proof.
  intros Hi. unfold ControlNorm2DLoop.row_of. cbn [shape data]. f_equal.
  rewrite (skipn_concat_uniform i c) by apply shape2_mk_mat.
  replace c with (1 * c)%nat at 1 by lia.
  rewrite (firstn_concat_uniform 1 c).
  2:{ apply Forall_skipn, shape2_mk_mat. }
  unfold mk_mat. rewrite skipn_mk_vec, firstn_mk_vec by lia.
  cbn. rewrite app_nil_r, Nat.add_0_r. reflexivity.
Qed.

Lemma nth_row_mk {A : Type} (b c : nat) (f : nat -> nat -> A) (i : nat) :
  (i < b)%nat -> nth i (mk_mat b c f) [] = mk_vec c (f i).
Proof. intros Hi. unfold mk_mat. now rewrite nth_mk_vec. Qed.

Lemma bcast_c_mk (f : R -> R -> R) (c : nat) (p : nat -> mat) (s : nat -> R) :
  bcast_c f (mk_vec c p) (mk_vec c s) =
  mk_vec c (fun j => mat_map (fun e => f e (s j)) (p j)).
Proof. unfold bcast_c. now rewrite zip_with_mk_vec. Qed.

Lemma fold_left_seq_S {A : Type} (f : A -> nat -> A) (k : nat) (a : A) :
  fold_left f (seq 0 (S k)) a = f (fold_left f (seq 0 k) a) k.
Proof. now rewrite seq_S, fold_left_app. Qed.

Section LoopForwardMk.

Variables (cfg : config) (h w : nat).
Variables (X : nat -> nat -> mat) (m0 v0 : nat -> R).

Let b := b_size cfg.
Let c := num_features cfg.
Let rho := afwd cfg.
Let n := INR (h * w).
Let mu := mean_of n X.
Let Lm := fun i j => steps (fun _ => rho) (fun k => (1 - rho) * mu k j) 0 i (m0 j).
Let xv := fun i j => var_of n X i j + rho * (mu i j - Lm i j) ^ 2.
Let Lv := fun i j => steps (fun _ => rho) (fun k => (1 - rho) * xv k j) 0 i (v0 j).

Lemma loop_forward_mk (ls : ControlNorm2DLoop.state) :
  (1 < b)%nat -> (1 < c)%nat -> shape2 h w (X 0%nat 0%nat) ->
  ControlNorm2DLoop.m ls = mk_vec c m0 ->
  ControlNorm2DLoop.var ls = mk_vec c v0 ->
  let out := mk_mat b c (fun i j =>
               normalize (Lm i j) (sqrt (Lv i j + eps cfg)) (X i j)) in
  ControlNorm2DLoop.normalizer_forward cfg ls (mk_mat b c X) =
  Some (out,
        (out, mk_mat b c (fun i j => sqrt (Lv i j + eps cfg))),
        ControlNorm2DLoop.mkState (mk_vec c (Lm b)) (mk_vec c (Lv b))
          (ControlNorm2DLoop.u ls) (ControlNorm2DLoop.v ls)).
Proof.
  intros Hb Hc Hs Hm Hv out. unfold ControlNorm2DLoop.normalizer_forward.
  rewrite (moments_mk b c h w) by assumption. fold n mu.
  replace (length (mk_mat b c X)) with b
    by (unfold mk_mat; now rewrite length_mk_vec).
  assert (Hfold : forall k, (k <= b)%nat ->
    fold_left
      (ControlNorm2DLoop.forward_step cfg (mk_mat b c X)
         (mkT [b; c] (concat (mk_mat b c mu)))
         (mk_mat b c (var_of n X)))
      (seq 0 k) (Some ([], [], ls)) =
    Some (mk_mat k c (fun i j =>
            normalize (Lm i j) (sqrt (Lv i j + eps cfg)) (X i j)),
          mk_mat k c (fun i j => sqrt (Lv i j + eps cfg)),
          ControlNorm2DLoop.mkState (mk_vec c (Lm k)) (mk_vec c (Lv k))
            (ControlNorm2DLoop.u ls) (ControlNorm2DLoop.v ls))).
  { induction k as [|k IH]; intros Hk.
    - cbn [seq fold_left]. destruct ls as [lm lv lu lvv]. cbn in Hm, Hv.
      subst lm lv. reflexivity.
    - rewrite fold_left_seq_S, IH by lia.
      unfold ControlNorm2DLoop.forward_step at 1.
      cbn [bind ControlNorm2DLoop.m ControlNorm2DLoop.var
           ControlNorm2DLoop.u ControlNorm2DLoop.v].
      rewrite row_of_mk by lia. cbn [bind].
      rewrite !nth_row_mk by lia.
      rewrite !map_mk_vec, !bcast_c_mk, !zip_with_mk_vec, !map_mk_vec,
              !zip_with_mk_vec.
      fold rho. f_equal. f_equal; [f_equal|].
      + unfold mk_mat. rewrite (mk_vec_S k). reflexivity.
      + unfold mk_mat. rewrite (mk_vec_S k). reflexivity.
      + f_equal.
        * apply mk_vec_ext. intros j Hj. unfold Lm. cbn [steps Nat.add].
          generalize (steps (fun _ : nat => rho) (fun k0 : nat => (1 - rho) * mu k0 j) 0 k (m0 j)).
          generalize (mu k j). clearbody rho. intros; ring.
        * apply mk_vec_ext. intros j Hj.
          assert (E : Lv (S k) j = rho * Lv k j + (1 - rho) * xv k j)
            by reflexivity.
          rewrite E. unfold xv.
          generalize (Lv k j) (Lm k j) (mu k j) (var_of n X k j).
          clearbody rho. intros. ring. }
  rewrite Hfold by lia. reflexivity.
Qed.

End LoopForwardMk.

(** ** The forward passes agree *)

Lemma ent_mk (b c : nat) (f : nat -> nat -> R) (i j : nat) :
  (i < b)%nat -> (j < c)%nat -> ent (mk_mat b c f) i j = f i j.
Proof. intros. unfold ent. now apply nth_mk_mat. Qed.

Lemma plane_mk (b c : nat) (f : nat -> nat -> mat) (i j : nat) :
  (i < b)%nat -> (j < c)%nat -> plane (mk_mat b c f) i j = f i j.
Proof. intros. unfold plane. now apply nth_mk_mat. Qed.

Lemma shape2_eta (b c : nat) (x : mat) :
  shape2 b c x -> x = mk_mat b c (ent x).
Proof. apply (mk_mat_eta 0). Qed.

Lemma shape4_eta (b c h w : nat) (x : t4) :
  shape4 b c h w x -> x = mk_mat b c (plane x).
Proof. intros [H _]. now apply (mk_mat_eta []). Qed.

Lemma shape4_plane (b c h w : nat) (x : t4) (i j : nat) :
  shape4 b c h w x -> (i < b)%nat -> (j < c)%nat -> shape2 h w (plane x i j).
Proof.
  intros [[Hl Hr] Hp] Hi Hj. unfold plane.
  rewrite Forall_forall in Hp, Hr.
  assert (Hin : In (nth i x []) x) by (apply nth_In; lia).
  specialize (Hp _ Hin). specialize (Hr _ Hin).
  rewrite Forall_forall in Hp. apply Hp, nth_In. lia.
Qed.

Lemma shape4_mk (b c h w : nat) (f : nat -> nat -> mat) :
  (forall i j, (i < b)%nat -> (j < c)%nat -> shape2 h w (f i j)) ->
  shape4 b c h w (mk_mat b c f).
Proof.
  intros H. split; [apply shape2_mk_mat|].
  apply Forall_mk_vec. intros i Hi. apply Forall_mk_vec. intros j Hj.
  now apply H.
Qed.

Lemma last_mk_mat {A : Type} (b c : nat) (f : nat -> nat -> A) :
  (0 < b)%nat -> last (mk_mat b c f) [] = mk_vec c (f (b - 1)%nat).
Proof.
  intros Hb. destruct b as [|b]; [lia|]. unfold mk_mat.
  rewrite last_mk_vec. now replace (S b - 1)%nat with b by lia.
Qed.

Lemma shape2_normalize (h w : nat) (mu sigma : R) (p : mat) :
  shape2 h w p -> shape2 h w (normalize mu sigma p).
Proof. intros H. unfold normalize. now do 2 apply shape2_mat_map. Qed.

(** The stale values of [lin_momentum] are the sequential moving average. *)
Lemma stale_scan (b : nat) (rho : R) (P X Y : nat -> nat -> R) (i j : nat) :
  (forall n, (S n < b)%nat -> Y (S n) j = rho * Y n j + (1 - rho) * P (S n) j) ->
  (i <= b)%nat ->
  stale b Y (lm_fresh b rho P X Y) i j =
  steps (fun _ => rho) (fun n => (1 - rho) * X n j) 0 i (Y (b - 1)%nat j).
Proof.
  intros Hok Hi. unfold stale. destruct i as [|i]; [reflexivity|].
  cbn [Nat.eqb]. replace (S i - 1)%nat with i by lia.
  apply lm_fresh_scan; [assumption | lia].
Qed.

Lemma ema_ok_mk (b c : nat) (rho : R) (P X Y : nat -> nat -> R) :
  (forall n j, (S n < b)%nat -> (j < c)%nat ->
     Y (S n) j = rho * Y n j + (1 - rho) * P (S n) j) ->
  ema_ok rho b c (mk_mat b c (lm_fresh b rho P X Y)) (mk_mat b c X).
Proof.
  intros Hok. split; [apply shape2_mk_mat|]. split; [apply shape2_mk_mat|].
  intros i j Hi Hj. rewrite !ent_mk by lia.
  rewrite !lm_fresh_scan by (try lia; intros; apply Hok; lia).
  reflexivity.
Qed.

Lemma ema_ok_ent (rho : R) (b c : nat) (Y P : mat) :
  ema_ok rho b c Y P ->
  Y = mk_mat b c (ent Y) /\ P = mk_mat b c (ent P).
Proof. intros (HY & HP & _). split; now apply shape2_eta. Qed.

Import ControlNorm2D.

Lemma run_writes_forward (a1 a2 a3 a4 : mat) (st : state) :
  run_writes [(M_P, a1); (VAR_P, a2); (M, a3); (VAR, a4)] st =
  mkState a3 a4 a1 a2 (u st) (u_p st) (v_p st) (beta_p st) (alpha_p st)
          (cache st).
Proof. destruct st. reflexivity. Qed.

Lemma forward_sim (cfg : config) (h w : nat) (st : state)
    (ls : ControlNorm2DLoop.state) (x : t4) :
  (1 < b_size cfg)%nat -> (1 < num_features cfg)%nat ->
  shape4 (b_size cfg) (num_features cfg) h w x ->
  sim cfg st ls ->
  exists out sc st' ls',
    normalizer_forward cfg st x = (st', Some (out, (out, unsq2 sc))) /\
    ControlNorm2DLoop.normalizer_forward cfg ls x = Some (out, (out, sc), ls') /\
    sim cfg st' ls' /\
    cache st' = Some (make_consts cfg) /\
    shape4 (b_size cfg) (num_features cfg) h w out /\
    shape2 (b_size cfg) (num_features cfg) sc.
Proof.
  intros Hb Hc Hx Hsim.
  set (b := b_size cfg) in *. set (c := num_features cfg) in *.
  set (rho := afwd cfg).
  destruct Hsim as [Hm Hv Hu Hvc Hlm Hlv Hlvv Hlu Hk].
  fold b c rho in Hm, Hv, Hu, Hvc.
  destruct (ema_ok_ent _ _ _ _ _ Hm) as [Em Emp].
  destruct (ema_ok_ent _ _ _ _ _ Hv) as [Ev Evp].
  pose proof (shape4_eta _ _ _ _ _ Hx) as Ex.
  assert (Hs0 : shape2 h w (plane x 0 0)) by (apply (shape4_plane b c); (assumption || lia)).
  set (st1 := ensure_consts cfg st).
  assert (Hk1 : cache st1 = Some (make_consts cfg)).
  { unfold st1, ensure_consts. destruct (cache st) as [k|] eqn:E; [|reflexivity].
    rewrite E. f_equal. now apply Hk. }
  assert (Hbuf : m st1 = m st /\ m_p st1 = m_p st /\ var st1 = var st /\
                 var_p st1 = var_p st /\ u st1 = u st /\ u_p st1 = u_p st /\
                 v_p st1 = v_p st /\ alpha_p st1 = alpha_p st /\ beta_p st1 = beta_p st).
  { unfold st1, ensure_consts. destruct (cache st); repeat split; reflexivity. }
  destruct Hbuf as (B1 & B2 & B3 & B4 & B5 & B6 & B7 & B8 & B9).
  set (mu := mean_of (INR (h * w)) (plane x)).
  set (fm := lm_fresh b rho (ent (m_p st)) mu (ent (m st))).
  set (stm := stale b (ent (m st)) fm).
  set (xv := fun i j => var_of (INR (h * w)) (plane x) i j +
                        rho * (mu i j - stm i j) ^ 2).
  set (fv := lm_fresh b rho (ent (var_p st)) xv (ent (var st))).
  set (stv := stale b (ent (var st)) fv).
  pose proof (forward_log_mk cfg h w (plane x) (ent (m st)) (ent (m_p st))
                (ent (var st)) (ent (var_p st)) st1) as HF.
  cbv zeta in HF. fold b c rho in HF. fold mu fm stm xv fv stv in HF.
  specialize (HF Hb Hc Hs0 Hk1).
  rewrite B1, B2, B3, B4, <- Em, <- Emp, <- Ev, <- Evp, <- Ex in HF.
  specialize (HF eq_refl eq_refl eq_refl eq_refl).
  set (Lm := fun i j => steps (fun _ => rho) (fun k => (1 - rho) * mu k j) 0 i
                          (ent (m st) (b - 1)%nat j)).
  set (xl := fun i j => var_of (INR (h * w)) (plane x) i j +
                        rho * (mu i j - Lm i j) ^ 2).
  set (Lv := fun i j => steps (fun _ => rho) (fun k => (1 - rho) * xl k j) 0 i
                          (ent (var st) (b - 1)%nat j)).
  pose proof (loop_forward_mk cfg h w (plane x) (ent (m st) (b - 1)%nat)
                (ent (var st) (b - 1)%nat) ls) as HL.
  cbv zeta in HL. fold b c rho in HL. fold mu Lm xl Lv in HL.
  specialize (HL Hb Hc Hs0).
  rewrite <- Ex in HL.
  assert (Hlm' : ControlNorm2DLoop.m ls = mk_vec c (ent (m st) (b - 1)%nat)).
  { rewrite Hlm, Em at 1. apply last_mk_mat. lia. }
  assert (Hlv' : ControlNorm2DLoop.var ls = mk_vec c (ent (var st) (b - 1)%nat)).
  { rewrite Hlv, Ev at 1. apply last_mk_mat. lia. }
  specialize (HL Hlm' Hlv').
  assert (Cm : forall j, (j < c)%nat -> forall n, (S n < b)%nat ->
            ent (m st) (S n) j =
            rho * ent (m st) n j + (1 - rho) * ent (m_p st) (S n) j).
  { intros j Hj n Hn. now apply Hm. }
  assert (Cv : forall j, (j < c)%nat -> forall n, (S n < b)%nat ->
            ent (var st) (S n) j =
            rho * ent (var st) n j + (1 - rho) * ent (var_p st) (S n) j).
  { intros j Hj n Hn. now apply Hv. }
  assert (E1 : forall i j, (i <= b)%nat -> (j < c)%nat -> stm i j = Lm i j).
  { intros i j Hi Hj. unfold stm, fm. now apply stale_scan; [apply Cm|]. }
  assert (E2 : forall i j, (i <= b)%nat -> (j < c)%nat -> xv i j = xl i j).
  { intros i j Hi Hj. unfold xv, xl. now rewrite E1. }
  assert (E3 : forall i j, (i <= b)%nat -> (j < c)%nat -> stv i j = Lv i j).
  { intros i j Hi Hj. unfold stv, fv. rewrite stale_scan; [|now apply Cv|assumption].
    apply steps_ext. intros n Hn. split; [reflexivity|]. rewrite E2 by lia.
    reflexivity. }
  exists (mk_mat b c (fun i j =>
            normalize (stm i j) (sqrt (stv i j + eps cfg)) (plane x i j))),
         (mk_mat b c (fun i j => sqrt (stv i j + eps cfg))),
         (run_writes [(M_P, mk_mat b c mu); (VAR_P, mk_mat b c xv);
                      (M, mk_mat b c fm); (VAR, mk_mat b c fv)] st1),
         (ControlNorm2DLoop.mkState (mk_vec c (Lm b)) (mk_vec c (Lv b))
            (ControlNorm2DLoop.u ls) (ControlNorm2DLoop.v ls)).
  split; [|split; [|split; [|split; [|split]]]].
  - unfold normalizer_forward. fold st1. now rewrite HF.
  - rewrite HL.
    rewrite (mk_mat_ext b c (fun i j => sqrt (Lv i j + eps cfg))
               (fun i j => sqrt (stv i j + eps cfg)))
      by (intros i j Hi Hj; now rewrite E3 by lia).
    rewrite (mk_mat_ext b c
               (fun i j => normalize (Lm i j) (sqrt (Lv i j + eps cfg)) (plane x i j))
               (fun i j => normalize (stm i j) (sqrt (stv i j + eps cfg)) (plane x i j)))
      by (intros i j Hi Hj; now rewrite E1, E3 by lia).
    reflexivity.
  - rewrite run_writes_forward. rewrite B5, B6, B7, B8, B9.
    constructor; cbn [m var m_p var_p u u_p v_p beta_p alpha_p cache
                       ControlNorm2DLoop.m ControlNorm2DLoop.var
                       ControlNorm2DLoop.u ControlNorm2DLoop.v];
      fold b c rho; try assumption.
    + apply ema_ok_mk. intros n j Hn Hj. now apply Cm.
    + apply ema_ok_mk. intros n j Hn Hj. now apply Cv.
    + rewrite last_mk_mat by lia. apply mk_vec_ext. intros j Hj.
      unfold fm. rewrite lm_fresh_scan by (try apply Cm; (assumption || lia)).
      unfold Lm. now replace (S (b - 1)) with b by lia.
    + rewrite last_mk_mat by lia. apply mk_vec_ext. intros j Hj.
      unfold fv. rewrite lm_fresh_scan by (try apply Cv; (assumption || lia)).
      unfold Lv. replace (S (b - 1)) with b by lia.
      apply steps_ext. intros n Hn. split; [reflexivity|].
      now rewrite E2 by lia.
    + intros k Hk'. rewrite Hk1 in Hk'. now inversion Hk'.
  - rewrite run_writes_forward. exact Hk1.
  - apply shape4_mk. intros i j Hi Hj. apply shape2_normalize.
    now apply (shape4_plane b c).
  - apply shape2_mk_mat.
Qed.

(** ** Sums over planes *)

Lemma zip_with_nil_r {A B C : Type} (f : A -> B -> C) (l : list A) :
  zip_with f l [] = [].
Proof. destruct l; reflexivity. Qed.

Lemma zip_with_app {A B C : Type} (f : A -> B -> C)
    (l1 l2 : list A) (k1 k2 : list B) :
  length l1 = length k1 ->
  zip_with f (l1 ++ l2) (k1 ++ k2) = zip_with f l1 k1 ++ zip_with f l2 k2.
Proof.
  revert k1. induction l1 as [|a l1 IH]; intros [|e k1] Hl; cbn in Hl; try lia.
  - reflexivity.
  - cbn [app]. rewrite !zip_with_cons. cbn [app]. f_equal. apply IH. lia.
Qed.

Lemma concat_mat_zip (f : R -> R -> R) (h w : nat) (p q : mat) :
  shape2 h w p -> shape2 h w q ->
  concat (mat_zip f p q) = zip_with f (concat p) (concat q).
Proof.
  intros [_ Hpr] [_ Hqr]. revert q Hqr.
  induction Hpr as [|r p Hr _ IH]; intros q Hqr.
  - reflexivity.
  - destruct Hqr as [|s q Hs Hqr].
    + cbn [concat]. now rewrite zip_with_nil_r.
    + unfold mat_zip. rewrite zip_with_cons. cbn [concat].
      rewrite zip_with_app by lia. f_equal. now apply IH.
Qed.

Lemma length_concat_plane (h w : nat) (p : mat) :
  shape2 h w p -> length (concat p) = (h * w)%nat.
Proof. intros [Hl Hr]. rewrite (length_concat_uniform w), Hl by assumption. reflexivity. Qed.

Lemma concat_mat_map (f : R -> R) (p : mat) :
  concat (mat_map f p) = map f (concat p).
Proof. unfold mat_map. now rewrite concat_map. Qed.

Lemma sum_zip_lin (k : R) (g o : list R) :
  length g = length o ->
  sum_list (zip_with Rmult (zip_with Rminus g (map (fun e => k * e) o)) o) =
  sum_list (zip_with Rmult g o) - k * sum_list (zip_with Rmult o o).
Proof.
  revert o. induction g as [|a g IH]; intros [|e o] Hl; cbn in Hl; try lia.
  - cbn. lra.
  - cbn [map]. rewrite !zip_with_cons. cbn [sum_list fold_right].
    fold (sum_list (zip_with Rmult (zip_with Rminus g (map (fun e => k * e) o)) o)).
    fold (sum_list (zip_with Rmult g o)). fold (sum_list (zip_with Rmult o o)).
    rewrite IH by lia. ring.
Qed.

Lemma sum_map_shift (k : R) (l : list R) :
  sum_list (map (fun e => e - k) l) = sum_list l - INR (length l) * k.
Proof.
  induction l as [|a l IH].
  - cbn. lra.
  - cbn [map length]. rewrite S_INR. cbn [sum_list fold_right].
    fold (sum_list (map (fun e => e - k) l)). fold (sum_list l).
    rewrite IH. ring.
Qed.

(** [E[(g - k o) o] = E[g o] - k E[o o]] on planes of one shape. *)
Lemma psum_ctrl (k : R) (h w : nat) (g o : mat) :
  shape2 h w g -> shape2 h w o ->
  psum (mat_zip Rmult (mat_zip Rminus g (mat_map (fun e => k * e) o)) o) =
  psum (mat_zip Rmult g o) - k * psum (mat_zip Rmult o o).
Proof.
  intros Hg Ho. unfold psum.
  rewrite (concat_mat_zip Rmult h w), (concat_mat_zip Rminus h w),
          concat_mat_map, !(concat_mat_zip Rmult h w); try assumption.
  - apply sum_zip_lin.
    now rewrite (length_concat_plane h w g), (length_concat_plane h w o).
  - now apply shape2_mat_map.
  - apply shape2_mat_zip; [assumption | now apply shape2_mat_map].
Qed.

(** [sum (p - k) = sum p - h w k] on a plane. *)
Lemma psum_shift (k : R) (h w : nat) (p : mat) :
  shape2 h w p ->
  psum (mat_map (fun e => e - k) p) = psum p - INR (h * w) * k.
Proof.
  intros Hp. unfold psum.
  now rewrite concat_mat_map, sum_map_shift, (length_concat_plane h w).
Qed.

(** ** The backward pass of ControlNorm2DLoop, entrywise *)

Lemma plane_size (h w : nat) (p : mat) :
  shape2 h w p -> (length p * length (hd [] p))%nat = (h * w)%nat.
Proof.
  intros [Hl Hr]. destruct p as [|r p]; cbn [hd length] in *.
  - subst h. reflexivity.
  - inversion Hr; subst. reflexivity.
Qed.

Lemma loop_mean_mk (c h w : nat) (Z : nat -> mat) :
  (0 < c)%nat -> shape2 h w (Z 0%nat) ->
  ControlNorm2DLoop.mean (mk_vec c Z) =
  mk_vec c (fun j => psum (Z j) / INR (h * w)).
Proof.
  intros Hc Hs. unfold ControlNorm2DLoop.mean.
  rewrite hd_mk_vec, (plane_size h w) by assumption.
  now rewrite map_mk_vec.
Qed.

Lemma zip3_mk (f : R -> R -> R) (c : nat) (p q : nat -> mat) :
  zip_with (zip_with (zip_with f)) (mk_vec c p) (mk_vec c q) =
  mk_vec c (fun j => mat_zip f (p j) (q j)).
Proof. now rewrite zip_with_mk_vec. Qed.

Section LoopBackwardMk.

Variables (cfg : config) (h w : nat).
Variables (G O : nat -> nat -> mat) (sc : nat -> nat -> R) (v0 u0 : nat -> R).

Let b := b_size cfg.
Let c := num_features cfg.
Let n := INR (h * w).
Let Lv := loop_v (abkw cfg) n G O v0.
Let Lu := loop_u (abkw cfg) n G O sc v0 u0.
Let gin := loop_gin (abkw cfg) n G O sc v0 u0.

Lemma loop_backward_mk (ls : ControlNorm2DLoop.state) :
  (0 < c)%nat ->
  (forall i j, (i < b)%nat -> (j < c)%nat ->
     shape2 h w (G i j) /\ shape2 h w (O i j)) ->
  ControlNorm2DLoop.v ls = mk_vec c v0 ->
  ControlNorm2DLoop.u ls = mk_vec c u0 ->
  ControlNorm2DLoop.normalizer_backward cfg ls
    (mk_mat b c O, mk_mat b c sc) (mk_mat b c G) =
  Some (mk_mat b c gin,
        ControlNorm2DLoop.mkState (ControlNorm2DLoop.m ls)
          (ControlNorm2DLoop.var ls) (mk_vec c (Lu b)) (mk_vec c (Lv b))).
Proof.
  intros Hc Hs Hv Hu. unfold ControlNorm2DLoop.normalizer_backward.
  replace (length (mk_mat b c G)) with b
    by (unfold mk_mat; now rewrite length_mk_vec).
  assert (Hfold : forall k, (k <= b)%nat ->
    fold_left
      (ControlNorm2DLoop.backward_step cfg (mk_mat b c O, mk_mat b c sc)
         (mk_mat b c G))
      (seq 0 k) (Some ([], ls)) =
    Some (mk_mat k c gin,
          ControlNorm2DLoop.mkState (ControlNorm2DLoop.m ls)
            (ControlNorm2DLoop.var ls) (mk_vec c (Lu k)) (mk_vec c (Lv k)))).
  { induction k as [|k IH]; intros Hk.
    - cbn [seq fold_left]. destruct ls as [lm lv lu lvv]. cbn in Hu, Hv.
      subst lu lvv. reflexivity.
    - rewrite fold_left_seq_S, IH by lia.
      unfold ControlNorm2DLoop.backward_step at 1.
      cbn [bind fst snd ControlNorm2DLoop.m ControlNorm2DLoop.var
           ControlNorm2DLoop.u ControlNorm2DLoop.v].
      rewrite !nth_row_mk by lia.
      rewrite !bcast_c_mk, zip3_mk.
      fold (loop_gvc (abkw cfg) G O).
      rewrite (mk_vec_ext c _ (fun j => loop_gvc (abkw cfg) G O (Lv k j) k j))
        by reflexivity.
      rewrite zip3_mk, !bcast_c_mk.
      destruct (Hs k 0%nat) as [Hg Ho]; [lia | lia |].
      rewrite (loop_mean_mk c h w), (loop_mean_mk c h w); try assumption.
      2,3: unfold loop_gvc;
           repeat first [assumption | apply shape2_mat_map | apply shape2_mat_zip].
      rewrite !zip_with_mk_vec. f_equal. f_equal.
      unfold mk_mat. now rewrite (mk_vec_S k). }
  now rewrite Hfold by lia.
Qed.

End LoopBackwardMk.

(** ** The backward pass of ControlNorm2D, entrywise *)

Import ControlNorm2D.

Lemma mean_mk (b c h w : nat) (Z : nat -> nat -> mat) :
  (0 < b)%nat -> (0 < c)%nat -> shape2 h w (Z 0%nat 0%nat) ->
  mean (mk_mat b c Z) = mk_mat b c (fun i j => psum (Z i j) / INR (h * w)).
Proof.
  intros Hb Hc Hs. unfold mean.
  now rewrite (size_mk b c h w), sum23_mk, mat_map_mk by assumption.
Qed.

Section BackwardMk.

Variables (cfg : config) (h w : nat).
Variables (G O : nat -> nat -> mat) (sc Vp Ap Bp Su Pu : nat -> nat -> R).

Let b := b_size cfg.
Let c := num_features cfg.
Let n := INR (h * w).
Let al := lc_alpha (abkw cfg) backward_eps n O.
Let be := lc_beta n G O.
Let vn := lc_vnew b (cat2 b Ap al) (cat2 b Bp be) Vp.
Let vst := stale b Vp vn.
Let gs := fun i j =>
  mat_map (fun e => e / sc i j)
    (mat_zip Rminus (G i j)
       (mat_map (fun o => vst i j * (1 - abkw cfg) * o) (O i j))).
Let ut := fun i j => psum (gs i j) / n.
Let fu := lm_fresh b (abkw cfg) Pu ut Su.
Let ust := stale b Su fu.

Lemma backward_log_mk (st : state) :
  (1 < b)%nat -> (1 < c)%nat ->
  shape2 h w (G 0%nat 0%nat) -> shape2 h w (O 0%nat 0%nat) ->
  cache st = Some (make_consts cfg) ->
  v_p st = mk_mat b c Vp -> alpha_p st = mk_mat b c Ap ->
  beta_p st = mk_mat b c Bp ->
  u st = mk_mat b c Su -> u_p st = mk_mat b c Pu ->
  backward_log cfg st (mk_mat b c O, unsq2 (mk_mat b c sc)) (mk_mat b c G) =
  ([(V_P, mk_mat b c vn); (ALPHA_P, mk_mat b c al); (BETA_P, mk_mat b c be);
    (U_P, mk_mat b c ut); (U, mk_mat b c fu)],
   Some (mk_mat b c (fun i j => mat_map (fun e => e - ust i j) (gs i j)))).
Proof.
  intros Hb Hc Hg Ho Hk Hv Ha Hbe Hu Hup. unfold backward_log.
  rewrite Hk, Hv, Ha, Hbe, Hu, Hup. fold b c.
  rewrite (lin_crtl_mk b c h w) by (assumption || lia).
  fold n al be vn.
  change (fun i j => mat_zip Rminus (G i j)
            (mat_map (fun o => (if (i =? 0)%nat then Vp (b - 1)%nat j
                                else vn (i - 1)%nat j) * (1 - abkw cfg) * o)
                     (O i j)))
    with (fun i j => mat_zip Rminus (G i j)
            (mat_map (fun o => vst i j * (1 - abkw cfg) * o) (O i j))).
  rewrite bcast_hw_mk. fold gs.
  rewrite (mean_mk b c h w); try lia.
  2:{ unfold gs.
      repeat first [assumption | apply shape2_mat_map | apply shape2_mat_zip]. }
  fold n ut. cbn [bind].
  destruct (make_consts_af cfg) as [_ ->]. fold b.
  replace (ab_batch (make_consts cfg)) with (full b c (abkw cfg ^ b)) by reflexivity.
  rewrite of_mat_mk by lia.
  rewrite lin_momentum_mk by assumption.
  change (mk_mat b c (fun i j => if (i =? 0)%nat then Su (b - 1)%nat j
                                 else lm_fresh b (abkw cfg) Pu ut Su (i - 1) j))
    with (mk_mat b c ust).
  rewrite bcast_hw_mk. reflexivity.
Qed.

End BackwardMk.

(** ** The backward passes agree *)

Import ControlNorm2D.

Lemma mat_map_ext (f g : R -> R) (p : mat) :
  (forall e, f e = g e) -> mat_map f p = mat_map g p.
Proof.
  intros H. unfold mat_map. apply map_ext. intros r. now apply map_ext.
Qed.

Lemma all_ent_mk (P : R -> Prop) (b c : nat) (f : nat -> nat -> R) :
  all_ent P (mk_mat b c f) ->
  forall i j, (i < b)%nat -> (j < c)%nat -> P (f i j).
Proof.
  intros H i j Hi Hj. unfold all_ent in H.
  rewrite Forall_forall in H.
  assert (Hin : In (mk_vec c (f i)) (mk_mat b c f)).
  { unfold mk_mat. rewrite <- (nth_mk_vec b (fun i => mk_vec c (f i)) i []) by assumption.
    apply nth_In. now rewrite length_mk_vec. }
  specialize (H _ Hin). rewrite Forall_forall in H.
  apply H. rewrite <- (nth_mk_vec c (f i) j 0) by assumption.
  apply nth_In. now rewrite length_mk_vec.
Qed.

Lemma second_moment_mk (b c h w : nat) (Z : nat -> nat -> mat) :
  (0 < b)%nat -> (0 < c)%nat -> shape2 h w (Z 0%nat 0%nat) ->
  second_moment (mk_mat b c Z) =
  mk_mat b c (fun i j => psum (mat_zip Rmult (Z i j) (Z i j)) / INR (h * w)).
Proof.
  intros Hb Hc Hs. unfold second_moment.
  now rewrite (size_mk b c h w), t4_zip_mk, sum23_mk, mat_map_mk by assumption.
Qed.

Lemma backward_eps_pos : 0 < backward_eps.
Proof. unfold backward_eps. apply Rinv_0_lt_compat. lra. Qed.

Lemma lc_alpha_pos (abkw n : R) (Z : nat -> nat -> mat) (i j : nat) :
  0 < lc_alpha abkw backward_eps n Z i j.
Proof.
  unfold lc_alpha. eapply Rlt_le_trans; [apply backward_eps_pos|].
  apply Rmax_r.
Qed.

(** The stale values of the [v] trajectory are the sequential control
    recurrence. *)
Lemma stale_scan_v (b : nat) (Ap Bp Vp al be : nat -> nat -> R) (i j : nat) :
  (forall n, (S n < b)%nat -> Vp (S n) j = Ap (S n) j * Vp n j + Bp (S n) j) ->
  (forall n, (n < b)%nat -> 0 < Ap n j) ->
  (forall n, (n < b)%nat -> 0 < al n j) ->
  (i <= b)%nat ->
  stale b Vp (lc_vnew b (cat2 b Ap al) (cat2 b Bp be) Vp) i j =
  steps (fun n => al n j) (fun n => be n j) 0 i (Vp (b - 1)%nat j).
Proof.
  intros Hok Hap Hal Hi. unfold stale. destruct i as [|i]; [reflexivity|].
  cbn [Nat.eqb]. replace (S i - 1)%nat with i by lia.
  apply lc_vnew_scan; (assumption || lia).
Qed.

Lemma ctl_ok_mk (b c : nat) (Ap Bp Vp al be : nat -> nat -> R) :
  (forall n j, (S n < b)%nat -> (j < c)%nat ->
     Vp (S n) j = Ap (S n) j * Vp n j + Bp (S n) j) ->
  (forall n j, (n < b)%nat -> (j < c)%nat -> 0 < Ap n j) ->
  (forall n j, (n < b)%nat -> (j < c)%nat -> 0 < al n j) ->
  ctl_ok b c (mk_mat b c (lc_vnew b (cat2 b Ap al) (cat2 b Bp be) Vp))
         (mk_mat b c al) (mk_mat b c be).
Proof.
  intros Hok Hap Hal. repeat split; try apply shape2_mk_mat.
  - intros i j Hi Hj. rewrite ent_mk by assumption. now apply Hal.
  - intros i j Hi Hj. rewrite !ent_mk by lia.
    rewrite !lc_vnew_scan; try lia; try reflexivity;
      intros; (apply Hok || apply Hap || apply Hal); (assumption || lia).
Qed.

Lemma run_writes_backward (a1 a2 a3 a4 a5 : mat) (st : state) :
  run_writes [(V_P, a1); (ALPHA_P, a2); (BETA_P, a3); (U_P, a4); (U, a5)] st =
  mkState (m st) (var st) (m_p st) (var_p st) a5 a4 a1 a3 a2 (cache st).
Proof. destruct st. reflexivity. Qed.

Lemma ctl_ok_ent (b c : nat) (V A Bt : mat) :
  ctl_ok b c V A Bt ->
  V = mk_mat b c (ent V) /\ A = mk_mat b c (ent A) /\ Bt = mk_mat b c (ent Bt).
Proof. intros (HV & HA & HB & _). repeat split; now apply shape2_eta. Qed.

(** The sequential [v] controller is the control recurrence with the
    unclamped decay term. *)
Lemma loop_v_steps (abkw : R) (h w : nat) (G O : nat -> nat -> mat)
    (v0 : nat -> R) (al : nat -> nat -> R) (b i j : nat) :
  (forall k, (k < b)%nat -> shape2 h w (G k j) /\ shape2 h w (O k j)) ->
  (forall k, (k < b)%nat ->
     al k j = 1 - (1 - abkw) * (psum (mat_zip Rmult (O k j) (O k j)) / INR (h * w))) ->
  (i <= b)%nat ->
  loop_v abkw (INR (h * w)) G O v0 i j =
  steps (fun k => al k j) (fun k => lc_beta (INR (h * w)) G O k j) 0 i (v0 j).
Proof.
  intros Hs Hal. induction i as [|i IH]; intros Hi; [reflexivity|].
  cbn [loop_v steps Nat.add]. rewrite <- IH by lia.
  destruct (Hs i) as [Hg Ho]; [lia|].
  unfold loop_gvc.
  rewrite (psum_ctrl _ h w) by assumption.
  rewrite Hal by lia. unfold lc_beta, Rdiv. ring.
Qed.

Lemma shape2_loop_gs (abkw n : R) (h w : nat) (G O : nat -> nat -> mat)
    (sc : nat -> nat -> R) (v0 : nat -> R) (i j : nat) :
  shape2 h w (G i j) -> shape2 h w (O i j) ->
  shape2 h w (loop_gs abkw n G O sc v0 i j).
Proof.
  intros Hg Ho. unfold loop_gs, loop_gvc.
  repeat first [assumption | apply shape2_mat_map | apply shape2_mat_zip].
Qed.

(** The sequential [u] controller is a moving sum of the mean scaled
    gradients. *)
Lemma loop_u_steps (abkw : R) (h w : nat) (G O : nat -> nat -> mat)
    (sc : nat -> nat -> R) (v0 u0 : nat -> R) (b i j : nat) :
  (0 < h * w)%nat ->
  (forall k, (k < b)%nat -> shape2 h w (G k j) /\ shape2 h w (O k j)) ->
  (i <= b)%nat ->
  loop_u abkw (INR (h * w)) G O sc v0 u0 i j =
  steps (fun _ => abkw)
        (fun k => psum (loop_gs abkw (INR (h * w)) G O sc v0 k j) / INR (h * w))
        0 i (u0 j).
Proof.
  intros Hn Hs. induction i as [|i IH]; intros Hi; [reflexivity|].
  cbn [loop_u steps Nat.add]. rewrite <- IH by lia.
  destruct (Hs i) as [Hg Ho]; [lia|].
  rewrite (psum_shift _ h w) by now apply shape2_loop_gs.
  assert (Hn0 : INR (h * w) <> 0) by (apply not_0_INR; lia).
  field. exact Hn0.
Qed.

Lemma backward_sim (cfg : config) (h w : nat) (st : state)
    (ls : ControlNorm2DLoop.state) (out : t4) (sc : mat) (g : t4) :
  (1 < b_size cfg)%nat -> (1 < num_features cfg)%nat ->
  (0 < h)%nat -> (0 < w)%nat ->
  shape4 (b_size cfg) (num_features cfg) h w out ->
  shape4 (b_size cfg) (num_features cfg) h w g ->
  shape2 (b_size cfg) (num_features cfg) sc ->
  sim cfg st ls ->
  cache st = Some (make_consts cfg) ->
  clamp_inactive cfg out ->
  exists gi st' ls',
    normalizer_backward cfg st (out, unsq2 sc) g = (st', Some gi) /\
    ControlNorm2DLoop.normalizer_backward cfg ls (out, sc) g = Some (gi, ls') /\
    sim cfg st' ls' /\
    cache st' = Some (make_consts cfg) /\
    shape4 (b_size cfg) (num_features cfg) h w gi.
Proof.
  intros Hb Hc Hh Hw Hout Hg Hsc Hsim Hk Hclamp.
  set (b := b_size cfg) in *. set (c := num_features cfg) in *.
  set (ab := abkw cfg) in *. set (n := INR (h * w)).
  destruct Hsim as [Hm Hv Hu Hvc Hlm Hlv Hlvv Hlu Hkk].
  fold b c ab in Hm, Hv, Hu, Hvc, Hlu.
  destruct (ema_ok_ent _ _ _ _ _ Hu) as [Eu Eup].
  destruct (ctl_ok_ent _ _ _ _ _ Hvc) as (Evp & Eap & Ebp).
  pose proof (shape4_eta _ _ _ _ _ Hout) as Eo.
  pose proof (shape4_eta _ _ _ _ _ Hg) as Eg.
  pose proof (shape2_eta _ _ _ Hsc) as Es.
  assert (HsG : forall i j, (i < b)%nat -> (j < c)%nat -> shape2 h w (plane g i j))
    by (intros; now apply (shape4_plane b c)).
  assert (HsO : forall i j, (i < b)%nat -> (j < c)%nat -> shape2 h w (plane out i j))
    by (intros; now apply (shape4_plane b c)).
  set (G := plane g) in *. set (O := plane out) in *.
  set (al := lc_alpha ab backward_eps n O).
  set (be := lc_beta n G O).
  set (vn := lc_vnew b (cat2 b (ent (alpha_p st)) al) (cat2 b (ent (beta_p st)) be)
                     (ent (v_p st))).
  set (vst := stale b (ent (v_p st)) vn).
  set (gs := fun i j =>
    mat_map (fun e => e / ent sc i j)
      (mat_zip Rminus (G i j) (mat_map (fun o => vst i j * (1 - ab) * o) (O i j)))).
  set (ut := fun i j => psum (gs i j) / n).
  set (fu := lm_fresh b ab (ent (u_p st)) ut (ent (u st))).
  set (ust := stale b (ent (u st)) fu).
  pose proof (backward_log_mk cfg h w G O (ent sc) (ent (v_p st))
                (ent (alpha_p st)) (ent (beta_p st)) (ent (u st))
                (ent (u_p st)) st) as HB.
  cbv zeta in HB. fold b c ab n in HB. fold al be vn vst gs ut fu ust in HB.
  rewrite <- Evp, <- Eap, <- Ebp, <- Eu, <- Eup, <- Eo, <- Eg, <- Es in HB.
  assert (H0b : (0 < b)%nat) by lia. assert (H0c : (0 < c)%nat) by lia.
  specialize (HB Hb Hc (HsG _ _ H0b H0c) (HsO _ _ H0b H0c) Hk
                eq_refl eq_refl eq_refl eq_refl eq_refl).
  (* the sequential side *)
  set (v0 := ent (v_p st) (b - 1)%nat).
  set (u0 := fun j => nth j (ControlNorm2DLoop.u ls) 0).
  assert (Hlv0 : ControlNorm2DLoop.v ls = mk_vec c v0).
  { rewrite Hlvv, Evp at 1. apply last_mk_mat. lia. }
  assert (Hlast_u : last (u st) [] = mk_vec c (ent (u st) (b - 1)%nat)).
  { rewrite Eu at 1. apply last_mk_mat. lia. }
  assert (Hlu0 : ControlNorm2DLoop.u ls = mk_vec c u0).
  { rewrite (mk_vec_eta 0 (ControlNorm2DLoop.u ls)) at 1. f_equal.
    apply (f_equal (@length R)) in Hlu.
    rewrite Hlast_u, length_map, length_mk_vec in Hlu. exact Hlu. }
  assert (Hu0 : forall j, (j < c)%nat -> ent (u st) (b - 1)%nat j = (1 - ab) * u0 j).
  { intros j Hj. rewrite Hlast_u, Hlu0, map_mk_vec in Hlu.
    apply (f_equal (fun l => nth j l 0)) in Hlu.
    rewrite !nth_mk_vec in Hlu by assumption. now rewrite Hlu. }
  pose proof (loop_backward_mk cfg h w G O (ent sc) v0 u0 ls) as HL.
  cbv zeta in HL. fold b c ab n in HL.
  rewrite <- Eo, <- Eg, <- Es in HL.
  specialize (HL H0c (fun i j Hi Hj => conj (HsG i j Hi Hj) (HsO i j Hi Hj))
                Hlv0 Hlu0).
  set (Lv := loop_v ab n G O v0) in *.
  set (Lu := loop_u ab n G O (ent sc) v0 u0) in *.
  (* the clamp is inactive *)
  assert (Hal : forall i j, (i < b)%nat -> (j < c)%nat ->
            al i j = 1 - (1 - ab) * (psum (mat_zip Rmult (O i j) (O i j)) / n)).
  { intros i j Hi Hj. unfold clamp_inactive in Hclamp.
    rewrite Eo, (second_moment_mk b c h w) in Hclamp
      by (try apply HsO; lia).
    apply all_ent_mk with (i := i) (j := j) in Hclamp; try assumption.
    unfold al, lc_alpha. fold O ab n in Hclamp. now apply Rmax_left. }
  (* the controllers agree *)
  assert (Cv : forall j, (j < c)%nat -> forall k, (S k < b)%nat ->
            ent (v_p st) (S k) j =
            ent (alpha_p st) (S k) j * ent (v_p st) k j + ent (beta_p st) (S k) j).
  { intros j Hj k Hk'. now apply Hvc. }
  assert (Pa : forall j, (j < c)%nat -> forall k, (k < b)%nat -> 0 < ent (alpha_p st) k j).
  { intros j Hj k Hk'. now apply Hvc. }
  assert (Cu : forall j, (j < c)%nat -> forall k, (S k < b)%nat ->
            ent (u st) (S k) j = ab * ent (u st) k j + (1 - ab) * ent (u_p st) (S k) j).
  { intros j Hj k Hk'. now apply Hu. }
  assert (EV : forall i j, (i <= b)%nat -> (j < c)%nat -> vst i j = Lv i j).
  { intros i j Hi Hj. unfold vst, vn.
    rewrite stale_scan_v; try assumption;
      [| now apply Cv | now apply Pa | intros; apply lc_alpha_pos].
    unfold Lv, n. rewrite (loop_v_steps ab h w G O v0 al b); try assumption.
    - reflexivity.
    - intros k Hk'. split; [now apply HsG | now apply HsO].
    - intros k Hk'. now apply Hal. }
  assert (EG : forall i j, (i < b)%nat -> (j < c)%nat ->
            gs i j = loop_gs ab n G O (ent sc) v0 i j).
  { intros i j Hi Hj. unfold gs, loop_gs, loop_gvc. fold Lv.
    rewrite EV by lia. f_equal. f_equal. apply mat_map_ext. intros e. ring. }
  assert (EU : forall i j, (i <= b)%nat -> (j < c)%nat ->
            ust i j = (1 - ab) * Lu i j).
  { intros i j Hi Hj. unfold ust, fu.
    rewrite stale_scan; [| now apply Cu | assumption].
    unfold Lu, n. rewrite (loop_u_steps ab h w G O (ent sc) v0 u0 b); try assumption.
    - rewrite Hu0 by assumption. rewrite <- steps_scal.
      apply steps_ext. intros k Hk'. split; [reflexivity|].
      unfold ut. rewrite EG by lia. reflexivity.
    - nia.
    - intros k Hk'. split; [now apply HsG | now apply HsO]. }
  exists (mk_mat b c (fun i j => mat_map (fun e => e - ust i j) (gs i j))),
         (run_writes [(V_P, mk_mat b c vn); (ALPHA_P, mk_mat b c al);
                      (BETA_P, mk_mat b c be); (U_P, mk_mat b c ut);
                      (U, mk_mat b c fu)] st),
         (ControlNorm2DLoop.mkState (ControlNorm2DLoop.m ls)
            (ControlNorm2DLoop.var ls) (mk_vec c (Lu b)) (mk_vec c (Lv b))).
  split; [|split; [|split; [|split]]].
  - unfold normalizer_backward. now rewrite HB.
  - rewrite HL. f_equal. f_equal. apply mk_mat_ext. intros i j Hi Hj.
    unfold loop_gin. fold Lu. rewrite <- EG, EU by lia. reflexivity.
  - rewrite run_writes_backward.
    constructor; cbn [m var m_p var_p u u_p v_p beta_p alpha_p cache
                       ControlNorm2DLoop.m ControlNorm2DLoop.var
                       ControlNorm2DLoop.u ControlNorm2DLoop.v];
      fold b c ab; try assumption.
    + apply ema_ok_mk. intros k j Hk' Hj. now apply Cu.
    + apply ctl_ok_mk.
      * intros k j Hk' Hj. now apply Cv.
      * intros k j Hk' Hj. now apply Pa.
      * intros. apply lc_alpha_pos.
    + rewrite last_mk_mat by lia. apply mk_vec_ext. intros j Hj.
      rewrite <- EV by lia. unfold vst, stale.
      replace (b =? 0)%nat with false by (symmetry; apply Nat.eqb_neq; lia).
      reflexivity.
    + rewrite last_mk_mat, map_mk_vec by lia. apply mk_vec_ext. intros j Hj.
      rewrite <- EU by lia. unfold ust, stale.
      replace (b =? 0)%nat with false by (symmetry; apply Nat.eqb_neq; lia).
      reflexivity.
  - now rewrite run_writes_backward.
  - apply shape4_mk. intros i j Hi Hj. unfold gs.
    repeat first [apply HsG | apply HsO | assumption
                 | apply shape2_mat_map | apply shape2_mat_zip].
Qed.

(** ** Runs of training steps *)

Lemma ema_ok_full (rho : R) (b c : nat) (x : R) :
  ema_ok rho b c (ControlNorm2D.full b c x) (ControlNorm2D.full b c x).
Proof.
  rewrite full_mk. repeat split; try apply shape2_mk_mat.
  intros i j Hi Hj. rewrite !ent_mk by lia. ring.
Qed.

Lemma sim_init (cfg : config) :
  (0 < b_size cfg)%nat ->
  sim cfg (ControlNorm2D.init cfg) (ControlNorm2DLoop.init cfg).
Proof.
  intros Hb. constructor; cbn; try apply ema_ok_full.
  - rewrite !full_mk. repeat split; try apply shape2_mk_mat.
    + intros i j Hi Hj. rewrite ent_mk by assumption. lra.
    + intros i j Hi Hj. rewrite !ent_mk by lia. ring.
  - rewrite full_mk, last_mk_mat by assumption. apply repeat_mk_vec.
  - rewrite full_mk, last_mk_mat by assumption. apply repeat_mk_vec.
  - rewrite full_mk, last_mk_mat by assumption. apply repeat_mk_vec.
  - rewrite full_mk, last_mk_mat, repeat_mk_vec, map_mk_vec by assumption.
    apply mk_vec_ext. intros. ring.
  - discriminate.
Qed.

Lemma step_sim (cfg : config) (h w : nat) (st : ControlNorm2D.state)
    (ls : ControlNorm2DLoop.state) (xg : t4 * t4) :
  (1 < b_size cfg)%nat -> (1 < num_features cfg)%nat ->
  (0 < h)%nat -> (0 < w)%nat ->
  shape4 (b_size cfg) (num_features cfg) h w (fst xg) ->
  shape4 (b_size cfg) (num_features cfg) h w (snd xg) ->
  sim cfg st ls ->
  (forall st' out gi, lin_step cfg st xg = (st', Some (out, gi)) ->
     clamp_inactive cfg out) ->
  exists out gi st' ls',
    lin_step cfg st xg = (st', Some (out, gi)) /\
    loop_step cfg ls xg = Some (out, gi, ls') /\
    sim cfg st' ls' /\
    shape4 (b_size cfg) (num_features cfg) h w out /\
    shape4 (b_size cfg) (num_features cfg) h w gi.
Proof.
  intros Hb Hc Hh Hw Hx Hg Hsim Hclamp.
  destruct (forward_sim cfg h w st ls (fst xg) Hb Hc Hx Hsim)
    as (out & sc & st1 & ls1 & HF & HL & Hsim1 & Hk1 & Hout & Hsc).
  assert (Hstep : lin_step cfg st xg =
            let '(st2, r2) :=
              ControlNorm2D.normalizer_backward cfg st1 (out, unsq2 sc) (snd xg) in
            (st2, option_map (fun gi => (out, gi)) r2)).
  { unfold lin_step, ControlNorm2D.forward. rewrite HF. reflexivity. }
  assert (Hci : clamp_inactive cfg out).
  { destruct (ControlNorm2D.normalizer_backward cfg st1 (out, unsq2 sc) (snd xg))
      as [st2 [gi|]] eqn:E.
    - apply (Hclamp st2 out gi). now rewrite Hstep.
    - unfold ControlNorm2D.normalizer_backward in E.
      destruct (ControlNorm2D.backward_log cfg st1 (out, unsq2 sc) (snd xg))
        as [l r] eqn:El.
      (* the backward pass cannot fail here: decide by the closed form *)
      exfalso.
      pose proof (shape4_eta _ _ _ _ _ Hout) as Eo.
      pose proof (shape4_eta _ _ _ _ _ Hg) as Eg.
      pose proof (shape2_eta _ _ _ Hsc) as Es.
      destruct Hsim1 as [_ _ Hu Hvc _ _ _ _ _].
      destruct (ema_ok_ent _ _ _ _ _ Hu) as [Eu Eup].
      destruct (ctl_ok_ent _ _ _ _ _ Hvc) as (Evp & Eap & Ebp).
      pose proof (backward_log_mk cfg h w (plane (snd xg)) (plane out) (ent sc)
                    (ent (ControlNorm2D.v_p st1)) (ent (ControlNorm2D.alpha_p st1))
                    (ent (ControlNorm2D.beta_p st1)) (ent (ControlNorm2D.u st1))
                    (ent (ControlNorm2D.u_p st1)) st1) as HB.
      cbv zeta in HB.
      rewrite <- Evp, <- Eap, <- Ebp, <- Eu, <- Eup, <- Eo, <- Eg, <- Es in HB.
      rewrite HB in El; try (assumption || reflexivity).
      + inversion El; subst. inversion E.
      + apply (shape4_plane (b_size cfg) (num_features cfg)); (assumption || lia).
      + apply (shape4_plane (b_size cfg) (num_features cfg)); (assumption || lia). }
  destruct (backward_sim cfg h w st1 ls1 out sc (snd xg) Hb Hc Hh Hw Hout Hg Hsc
              Hsim1 Hk1 Hci)
    as (gi & st2 & ls2 & HB & HLB & Hsim2 & _ & Hgi).
  exists out, gi, st2, ls2.
  split; [|split; [|split; [|split]]]; try assumption.
  - rewrite Hstep, HB. reflexivity.
  - unfold loop_step, ControlNorm2DLoop.forward. rewrite HL. cbn [bind].
    rewrite HLB. reflexivity.
Qed.

Lemma run_sim (cfg : config) (h w : nat) (batches : list (t4 * t4)) :
  (1 < b_size cfg)%nat -> (1 < num_features cfg)%nat ->
  (0 < h)%nat -> (0 < w)%nat ->
  batches_shape cfg h w batches ->
  forall st ls, sim cfg st ls ->
  run_clamp_inactive cfg st batches ->
  exists outs,
    lin_run cfg st batches = Some outs /\
    loop_run cfg ls batches = Some outs /\
    length outs = length batches.
Proof.
  intros Hb Hc Hh Hw Hs. induction Hs as [|xg rest [Hx Hg] _ IH];
    intros st ls Hsim Hcl.
  - exists []. split; [|split]; reflexivity.
  - cbn [run_clamp_inactive] in Hcl.
    destruct (step_sim cfg h w st ls xg Hb Hc Hh Hw Hx Hg Hsim)
      as (out & gi & st' & ls' & HS & HLS & Hsim' & _ & _).
    { intros st' out gi E. rewrite E in Hcl. apply Hcl. }
    rewrite HS in Hcl. destruct Hcl as [_ Hcl].
    destruct (IH st' ls' Hsim' Hcl) as (outs & H1 & H2 & H3).
    exists ((out, gi) :: outs). cbn [lin_run loop_run].
    rewrite HS, HLS, H1. cbn [bind]. rewrite H2. cbn [option_map length].
    now rewrite H3.
Qed.

(** ** What a call assigns *)

Import ControlNorm2D.

Lemma bind_some {A B : Type} (o : option A) (f : A -> option B) (y : B) :
  bind o f = Some y -> exists x, o = Some x /\ f x = Some y.
Proof. destruct o as [x|]; [|discriminate]. intros H. now exists x. Qed.

(** A forward pass that returns assigns [m_p], [var_p], [m] and [var], in
    this order. *)
Lemma forward_log_names (cfg : config) (st : state) (x : t4)
    (out : t4) (c : ctx) (l : log) :
  forward_log cfg st x = Some (out, c, l) ->
  map fst l = [M_P; VAR_P; M; VAR].
Proof.
  unfold forward_log. intros H.
  apply bind_some in H as (k & _ & H).
  destruct (moments x) as [mu var_].
  apply bind_some in H as ([smu fmu] & _ & H).
  apply bind_some in H as (mu2 & _ & H).
  apply bind_some in H as ([sv fv] & _ & H).
  inversion H; subst. reflexivity.
Qed.

(** The decay term returned by [lin_crtl] is the clamped one. *)
Lemma lin_crtl_alpha_of (delta out : t4) (b c : nat) (v_p alpha_p beta_p : mat)
    (abkw eps : R) (gd : t4) (vn al be : mat) :
  lin_crtl delta out b c v_p alpha_p beta_p abkw eps = Some (gd, vn, al, be) ->
  lin_crtl_alpha delta out b c abkw eps = Some al.
Proof.
  unfold lin_crtl. intros H.
  apply bind_some in H as (al' & Hal & H).
  apply bind_some in H as (be' & _ & H).
  apply bind_some in H as (x1 & _ & H).
  apply bind_some in H as (x2 & _ & H).
  apply bind_some in H as (x3 & _ & H).
  apply bind_some in H as (x4 & _ & H).
  apply bind_some in H as (x5 & _ & H).
  inversion H; subst. exact Hal.
Qed.

Lemma all_ent_map (P : R -> Prop) (f : R -> R) (x : mat) :
  (forall e, P (f e)) -> all_ent P (mat_map f x).
Proof.
  intros H. unfold all_ent, mat_map.
  apply Forall_map, Forall_forall. intros r _.
  apply Forall_map, Forall_forall. intros e _. apply H.
Qed.

(** Every entry of the clamped decay term is at least the floor. *)
Lemma lin_crtl_alpha_floor (delta out : t4) (b c : nat) (abkw eps : R)
    (al : mat) :
  lin_crtl_alpha delta out b c abkw eps = Some al ->
  all_ent (fun a => eps <= a) al.
Proof.
  unfold lin_crtl_alpha. intros H.
  apply bind_some in H as (e2 & _ & H). inversion H; subst.
  apply all_ent_map. intros e. apply Rmax_r.
Qed.

(** The assignments of a backward pass: none when [lin_crtl] raises, those
    of line 438 when the [u] controller raises, all five otherwise. *)
Lemma backward_log_cases (cfg : config) (st : state) (c : ctx) (g : t4)
    (l : log) (r : option t4) :
  backward_log cfg st c g = (l, r) ->
  (l = [] /\ r = None) \/
  (exists gd vn al be,
     lin_crtl g (fst c) (b_size cfg) (num_features cfg) (v_p st) (alpha_p st)
              (beta_p st) (abkw cfg) backward_eps = Some (gd, vn, al, be) /\
     ((l = [(V_P, vn); (ALPHA_P, al); (BETA_P, be)] /\ r = None) \/
      (exists ut fu gi,
         l = [(V_P, vn); (ALPHA_P, al); (BETA_P, be); (U_P, ut); (U, fu)] /\
         r = Some gi))).
Proof.
  unfold backward_log. destruct c as [out scale]. cbn [fst].
  destruct (lin_crtl g out (b_size cfg) (num_features cfg) (v_p st)
              (alpha_p st) (beta_p st) (abkw cfg) backward_eps)
    as [[[[gd vn] al] be]|].
  - intros H. right. exists gd, vn, al, be. split; [reflexivity|].
    destruct (bind (cache st) _) as [[sb fb]|].
    + right. inversion H; subst. eexists _, _, _. split; reflexivity.
    + left. inversion H; subst. split; reflexivity.
  - intros H. left. inversion H; subst. split; reflexivity.
Qed.

(** ** Batches of one sample and inputs of one channel *)

Import ControlNorm2D.

Lemma moments_of (b c h w : nat) (x : t4) :
  (0 < b)%nat -> (0 < c)%nat -> shape4 b c h w x ->
  moments x =
  (squeeze (mkT [b; c; 1%nat; 1%nat]
              (concat (mk_mat b c (mean_of (INR (h * w)) (plane x))))),
   mk_mat b c (var_of (INR (h * w)) (plane x))).
Proof.
  intros Hb Hc Hx. rewrite (shape4_eta b c h w x Hx) at 1.
  apply moments_mk_gen; try assumption.
  now apply (shape4_plane b c).
Qed.

(** The mean returned by [moments] has two axes only when neither the batch
    nor the channel axis has size one. *)
Lemma moments_rank (b c h w : nat) (x : t4) :
  (0 < b)%nat -> (0 < c)%nat -> shape4 b c h w x ->
  (b = 1%nat \/ c = 1%nat) ->
  shape (fst (moments x)) <> [b; c] /\
  as_mat (fst (moments x)) = None.
Proof.
  intros Hb Hc Hx Hbc. rewrite (moments_of b c h w) by assumption.
  unfold squeeze, as_mat. cbn [fst shape data filter Nat.eqb negb].
  destruct (Nat.eqb_spec b 1), (Nat.eqb_spec c 1); cbn [negb];
    try lia; split; try reflexivity; intros E; inversion E; lia.
Qed.

(** [lin_momentum] raises on a current value that has not two axes. *)
Lemma lin_momentum_rank (mu_prev : mat) (mu_curr : tensor) (mu_stream : mat)
    (momentum : R) (momentum_pow : t3) (momentum_batch : mat) :
  as_mat mu_curr = None ->
  lin_momentum mu_prev mu_curr mu_stream momentum momentum_pow momentum_batch
  = None.
Proof. intros H. unfold lin_momentum. now rewrite H. Qed.

Lemma forward_log_rank (cfg : config) (st : state) (x : t4) :
  as_mat (fst (moments x)) = None -> forward_log cfg st x = None.
Proof.
  intros H. unfold forward_log. destruct (cache st); [|reflexivity].
  cbn [bind].
  destruct (moments x) as [mu var_]. cbn [fst] in H.
  now rewrite lin_momentum_rank.
Qed.

(** A failed forward pass assigns no buffer. *)
Lemma ensure_consts_buffers (cfg : config) (st : state) (b : buffer) :
  read b (ensure_consts cfg st) = read b st.
Proof. unfold ensure_consts. destruct (cache st), b; reflexivity. Qed.

Lemma forward_raises (cfg : config) (st : state) (b c h w : nat) (x : t4) :
  (0 < b)%nat -> (0 < c)%nat -> shape4 b c h w x ->
  (b = 1%nat \/ c = 1%nat) ->
  snd (normalizer_forward cfg st x) = None /\
  forall buf, read buf (fst (normalizer_forward cfg st x)) = read buf st.
Proof.
  intros Hb Hc Hx Hbc. unfold normalizer_forward.
  rewrite forward_log_rank by now apply (moments_rank b c h w).
  split; [reflexivity|]. intros buf. apply ensure_consts_buffers.
Qed.

(** ** Non-negative variance *)


Lemma sum_list_nonneg (l : list R) : Forall (fun e => 0 <= e) l -> 0 <= sum_list l.
Proof.
  induction 1 as [|e l He _ IH]; cbn; [lra|].
  fold (sum_list l). lra.
Qed.

Lemma psum_sq_nonneg (d : mat) : 0 <= psum (mat_zip Rmult d d).
Proof.
  unfold psum. apply sum_list_nonneg, Forall_concat.
  unfold mat_zip. rewrite zip_with_diag.
  apply Forall_map, Forall_forall. intros r _. rewrite zip_with_diag.
  apply Forall_map, Forall_forall. intros e _. nra.
Qed.

Lemma var_of_nonneg (h w : nat) (X : nat -> nat -> mat) (i j : nat) :
  (0 < h * w)%nat -> 0 <= var_of (INR (h * w)) X i j.
Proof.
  intros Hn. unfold var_of. cbv zeta.
  apply Rmult_le_pos; [apply psum_sq_nonneg|].
  left. apply Rinv_0_lt_compat, lt_0_INR. exact Hn.
Qed.

Lemma window_nonneg (b : nat) (P X : nat -> nat -> R) (n j : nat) :
  (forall i, 0 <= P i j) -> (forall i, 0 <= X i j) -> 0 <= window b P X n j.
Proof. intros HP HX. unfold window. destruct (n <? b - 1)%nat; auto. Qed.

Lemma lm_fresh_nonneg (b : nat) (rho : R) (P X Y : nat -> nat -> R) (i j : nat) :
  0 <= rho <= 1 ->
  (forall k, 0 <= P k j) -> (forall k, 0 <= X k j) -> (forall k, 0 <= Y k j) ->
  0 <= lm_fresh b rho P X Y i j.
Proof.
  intros Hr HP HX HY. unfold lm_fresh.
  assert (Hpow : forall k, 0 <= rho ^ k) by (intros; apply pow_le; lra).
  apply Rplus_le_le_0_compat.
  - apply Rmult_le_pos; auto.
  - apply Rmult_le_pos; [lra|]. apply rsum_nonneg. intros t _.
    apply Rmult_le_pos; [now apply window_nonneg | auto].
Qed.

Lemma ent_overflow (x : mat) (b c i j : nat) :
  shape2 b c x -> (b <= i)%nat \/ (c <= j)%nat -> ent x i j = 0.
Proof.
  intros [Hl Hr] H. unfold ent.
  destruct (Nat.lt_ge_cases i b) as [Hi | Hi].
  - apply nth_overflow. rewrite Forall_forall in Hr.
    rewrite (Hr (nth i x [])) by (apply nth_In; lia). lia.
  - rewrite (nth_overflow x) by lia. now destruct j.
Qed.

Lemma ent_nonneg_mk (b c : nat) (f : nat -> nat -> R) :
  (forall i j, 0 <= f i j) -> forall i j, 0 <= ent (mk_mat b c f) i j.
Proof.
  intros H i j.
  destruct (Nat.lt_ge_cases i b) as [Hi | Hi];
    [destruct (Nat.lt_ge_cases j c) as [Hj | Hj]|].
  - rewrite ent_mk by assumption. apply H.
  - rewrite (ent_overflow _ b c) by (try apply shape2_mk_mat; lia). lra.
  - rewrite (ent_overflow _ b c) by (try apply shape2_mk_mat; lia). lra.
Qed.

Lemma all_ent_of_ent (P : R -> Prop) (b c : nat) (x : mat) :
  shape2 b c x -> (forall i j, P (ent x i j)) -> all_ent P x.
Proof.
  intros Hs H. rewrite (shape2_eta b c x Hs). unfold all_ent.
  apply Forall_mk_vec. intros i _. apply Forall_mk_vec. intros j _. apply H.
Qed.

Lemma shape2_full (b c : nat) (x : R) : shape2 b c (full b c x).
Proof. rewrite full_mk. apply shape2_mk_mat. Qed.

Lemma var_inv_init (cfg : config) : var_inv cfg (init cfg).
Proof.
  unfold var_inv, init. cbn. repeat split; try apply shape2_full.
  - discriminate.
  - intros i j. rewrite full_mk. apply ent_nonneg_mk. intros; lra.
  - intros i j. rewrite full_mk. apply ent_nonneg_mk. intros; lra.
Qed.

Lemma var_inv_forward (cfg : config) (st : state) (x : t4) (h w : nat) :
  0 <= afwd cfg <= 1 -> (0 < b_size cfg)%nat -> (0 < num_features cfg)%nat ->
  (0 < h)%nat -> (0 < w)%nat ->
  shape4 (b_size cfg) (num_features cfg) h w x ->
  var_inv cfg st -> var_inv cfg (fst (forward cfg true st x)).
Proof.
  intros Hr Hb Hc Hh Hw Hx (Hm & Hmp & Hv & Hvp & Hk & Nv & Nvp).
  unfold forward. destruct (normalizer_forward cfg st x) as [st' r] eqn:E.
  cbn [fst]. unfold normalizer_forward in E.
  set (st1 := ensure_consts cfg st) in *.
  assert (Hk1 : cache st1 = Some (make_consts cfg)).
  { unfold st1, ensure_consts. destruct (cache st) as [k|] eqn:Ek; [|reflexivity].
    rewrite Ek. f_equal. now apply Hk. }
  assert (Hbuf : forall buf, read buf st1 = read buf st)
    by (intros; apply ensure_consts_buffers).
  pose proof (Hbuf M) as B1. pose proof (Hbuf M_P) as B2.
  pose proof (Hbuf VAR) as B3. pose proof (Hbuf VAR_P) as B4.
  cbn [read] in B1, B2, B3, B4.
  assert (Inv1 : var_inv cfg st1).
  { unfold var_inv. rewrite B1, B2, B3, B4, Hk1.
    split; [|split; [|split; [|split; [|split; [|split]]]]]; try assumption.
    intros k Ek. now inversion Ek. }
  destruct (Nat.lt_ge_cases 1 (b_size cfg)) as [Hb1 | Hb1];
    [destruct (Nat.lt_ge_cases 1 (num_features cfg)) as [Hc1 | Hc1]|].
  - (* the call returns *)
    assert (Hp : shape2 h w (plane x 0 0))
      by (apply (shape4_plane (b_size cfg) (num_features cfg)); (assumption || lia)).
    pose proof (forward_log_mk cfg h w (plane x) (ent (m st)) (ent (m_p st))
                  (ent (var st)) (ent (var_p st)) st1 Hb1 Hc1 Hp Hk1) as HF.
    rewrite B1, B2, B3, B4 in HF.
    rewrite <- (shape2_eta _ _ _ Hm), <- (shape2_eta _ _ _ Hmp),
            <- (shape2_eta _ _ _ Hv), <- (shape2_eta _ _ _ Hvp),
            <- (shape4_eta _ _ _ _ _ Hx) in HF.
    specialize (HF eq_refl eq_refl eq_refl eq_refl). cbv zeta in HF.
    rewrite HF in E.
    rewrite run_writes_forward in E. injection E as <- _. clear HF.
    unfold var_inv.
    cbn [m var m_p var_p cache]. rewrite Hk1.
    assert (Hn : (0 < h * w)%nat) by nia.
    set (xv := fun i j : nat => _ + _).
    assert (Nx : forall i j, 0 <= xv i j).
    { intros i j. unfold xv. apply Rplus_le_le_0_compat.
      - now apply var_of_nonneg.
      - apply Rmult_le_pos; [lra|]. apply pow2_ge_0. }
    repeat split; try apply shape2_mk_mat.
    + intros k Ek. now inversion Ek.
    + apply ent_nonneg_mk. intros i j. now apply lm_fresh_nonneg.
    + now apply ent_nonneg_mk.
  - (* one channel: the call raises *)
    assert (El : forward_log cfg st1 x = None).
    { apply forward_log_rank.
      apply (moments_rank (b_size cfg) (num_features cfg) h w); try assumption; lia. }
    rewrite El in E. injection E as <- _. exact Inv1.
  - (* one sample: the call raises *)
    assert (El : forward_log cfg st1 x = None).
    { apply forward_log_rank.
      apply (moments_rank (b_size cfg) (num_features cfg) h w); try assumption; lia. }
    rewrite El in E. injection E as <- _. exact Inv1.
Qed.

(** ** Frames of the buffer assignments *)

Lemma read_write_other (b b' : buffer) (x : mat) (st : state) :
  b <> b' -> read b (write b' x st) = read b st.
Proof. destruct st, b, b'; intros H; try reflexivity; now elim H. Qed.

Lemma read_write_same (b : buffer) (x : mat) (st : state) :
  read b (write b x st) = x.
Proof. destruct st, b; reflexivity. Qed.

Lemma cache_write (b : buffer) (x : mat) (st : state) :
  cache (write b x st) = cache st.
Proof. destruct st, b; reflexivity. Qed.

Lemma read_run_writes_other (b : buffer) (l : log) (st : state) :
  ~ In b (map fst l) -> read b (run_writes l st) = read b st.
Proof.
  unfold run_writes. revert st. induction l as [|[b' x] l IH]; intros st H.
  - reflexivity.
  - cbn [fold_left fst snd]. rewrite IH.
    + apply read_write_other. intros ->. apply H. now left.
    + intros Hin. apply H. now right.
Qed.

(** A training-mode forward call leaves the buffers of the backward pass as
    they are, whether it returns or raises. *)
Lemma forward_frame (cfg : config) (st : state) (x : t4) (b : buffer) :
  In b [U; U_P; V_P; ALPHA_P; BETA_P] ->
  read b (fst (forward cfg true st x)) = read b st.
Proof.
  intros Hb. unfold forward, normalizer_forward.
  destruct (forward_log cfg (ensure_consts cfg st) x) as [[[out c] l]|] eqn:E;
    cbn [fst].
  - rewrite read_run_writes_other; [apply ensure_consts_buffers|].
    rewrite (forward_log_names _ _ _ _ _ _ E).
    cbn in Hb |- *. intuition congruence.
  - apply ensure_consts_buffers.
Qed.

(** A backward call leaves the buffers of the forward pass as they are,
    whether it returns or raises. *)
Lemma backward_frame (cfg : config) (st : state) (c : ctx) (g : t4) (b : buffer) :
  In b [M; VAR; M_P; VAR_P] ->
  read b (fst (normalizer_backward cfg st c g)) = read b st.
Proof.
  intros Hb. unfold normalizer_backward.
  destruct (backward_log cfg st c g) as [l r] eqn:E. cbn [fst].
  apply read_run_writes_other.
  destruct (backward_log_cases _ _ _ _ _ _ E)
    as [[-> _] | (gd & vn & al & be & _ & [[-> _] | (ut & fu & gi & -> & _)])];
    cbn in Hb |- *; intuition congruence.
Qed.

(** ** The decay term stays above the floor *)

Lemma all_ent_full (P : R -> Prop) (b c : nat) (x : R) :
  P x -> all_ent P (full b c x).
Proof.
  intros H. unfold all_ent, full.
  apply Forall_forall. intros r Hr. apply repeat_spec in Hr. subst r.
  apply Forall_forall. intros e He. apply repeat_spec in He. now subst e.
Qed.

Lemma backward_eps_le_1 : backward_eps <= 1.
Proof.
  unfold backward_eps. rewrite <- Rinv_1.
  apply Rinv_le_contravar; lra.
Qed.

Lemma alpha_p_backward (cfg : config) (st : state) (c : ctx) (g : t4) :
  all_ent (fun a => backward_eps <= a) (alpha_p st) ->
  all_ent (fun a => backward_eps <= a)
          (alpha_p (fst (normalizer_backward cfg st c g))).
Proof.
  intros H. unfold normalizer_backward.
  destruct (backward_log cfg st c g) as [l r] eqn:E. cbn [fst].
  destruct (backward_log_cases _ _ _ _ _ _ E)
    as [[-> _] | (gd & vn & al & be & Hl & Hcase)].
  - exact H.
  - apply lin_crtl_alpha_of in Hl. apply lin_crtl_alpha_floor in Hl.
    destruct Hcase as [[-> _] | (ut & fu & gi & -> & _)];
      destruct st; exact Hl.
Qed.

Lemma alpha_p_reachable (cfg : config) (st : state) :
  reachable cfg st -> all_ent (fun a => backward_eps <= a) (alpha_p st).
Proof.
  induction 1 as [|st x _ IH|st c g _ IH].
  - apply all_ent_full, backward_eps_le_1.
  - change (alpha_p (fst (forward cfg true st x)))
      with (read ALPHA_P (fst (forward cfg true st x))).
    rewrite forward_frame by (cbn; tauto). exact IH.
  - now apply alpha_p_backward.
Qed.

Lemma all_ent_app (P : R -> Prop) (x y : mat) :
  all_ent P x -> all_ent P y -> all_ent P (x ++ y).
Proof. intros Hx Hy. apply Forall_app. now split. Qed.

Lemma all_ent_impl (P Q : R -> Prop) (x : mat) :
  (forall e, P e -> Q e) -> all_ent P x -> all_ent Q x.
Proof.
  intros H Hx. unfold all_ent in *.
  eapply Forall_impl; [|exact Hx]. intros r Hr.
  eapply Forall_impl; [|exact Hr]. exact H.
Qed.

(** ** Auxiliary facts for the statements below *)

Lemma steps_unrolled (a b : nat -> R) (n : nat) (y : R) :
  steps a b 0 n y = unrolled a b n y.
Proof.
  unfold unrolled. induction n as [|n IH].
  - rewrite rsum_0. cbn. lra.
  - rewrite steps_S, rsum_S. cbn [Nat.add rprod].
    replace (S n - 1 - n)%nat with 0%nat by lia. cbn [rprod].
    rewrite (rsum_ext n _ (fun k =>
       a n * (b k * rprod (n - 1 - k) (fun t => a (k + 1 + t)%nat)))).
    + rewrite rsum_scal, IH. ring.
    + intros k Hk. replace (S n - 1 - k)%nat with (S (n - 1 - k)) by lia.
      cbn [rprod]. replace (k + 1 + (n - 1 - k))%nat with n by lia. ring.
Qed.

Lemma ctl_ok_init (b c : nat) :
  ctl_ok b c (full b c 0) (full b c 1) (full b c 0).
Proof.
  rewrite !full_mk. repeat split; try apply shape2_mk_mat.
  - intros i j Hi Hj. rewrite ent_mk by assumption. lra.
  - intros i j Hi Hj. rewrite !ent_mk by lia. lra.
Qed.

(** The evaluation path, entrywise: every sample is normalized by the same
    vector of means and the same vector of standard deviations. *)
Lemma eval_planes (n c : nat) (x : t4) (mu sd : nat -> R) (h w : nat) :
  shape4 n c h w x ->
  map (fun sample => bcast_c Rdiv (bcast_c Rminus sample (mk_vec c mu))
                             (mk_vec c sd)) x =
  mk_mat n c (fun i j => normalize (mu j) (sd j) (plane x i j)).
Proof.
  intros Hx. rewrite (shape4_eta n c h w x Hx) at 1.
  unfold mk_mat at 1. rewrite map_mk_vec. unfold mk_mat.
  apply mk_vec_ext. intros i Hi.
  now rewrite !bcast_c_mk.
Qed.

Lemma vec_eta (c : nat) (v : vec) : length v = c -> v = mk_vec c (fun j => nth j v 0).
Proof.
  intros H. apply (nth_ext _ _ 0 0).
  - now rewrite length_mk_vec.
  - intros j Hj. rewrite nth_mk_vec by lia. reflexivity.
Qed.

Lemma last_row (b c : nat) (y : mat) :
  (0 < b)%nat -> shape2 b c y -> last y [] = mk_vec c (ent y (b - 1)).
Proof.
  intros Hb Hy. rewrite (shape2_eta b c y Hy) at 1. now apply last_mk_mat.
Qed.

(** Evaluation of the models on concrete batches: the lists are computed,
    the real arithmetic is left to [lra]. *)
Lemma sqrt_val (a q : R) : 0 <= q -> q * q = a -> sqrt a = q.
Proof. intros Hq <-. now apply sqrt_square. Qed.

Lemma Rmax_floor (a f : R) : a <= f -> Rmax a f = f.
Proof. intros H. now apply Rmax_right. Qed.

Ltac eval_model :=
  cbv -[Rplus Rminus Rmult Rdiv Rinv Ropp sqrt exp ln Rmax IZR INR pow Rle Rlt].

Ltac eval_model_in H :=
  cbv -[Rplus Rminus Rmult Rdiv Rinv Ropp sqrt exp ln Rmax IZR INR pow Rle Rlt]
    in H.

Ltac solve_shape := repeat first [ split | constructor | reflexivity ].

(** * The claims *)

(** C1, with its side conditions: when the batch holds more than one
    sample, there is more than one channel, the planes are not empty, and
    the clamp of the backward pass stays inactive along the run, K training-mode forward calls
    each followed by its backward call return, in ControlNorm2D and in
    ControlNorm2DLoop started from construction, the same normalized outputs
    and the same propagated gradients. *)
Theorem linearized_matches_loop (cfg : config) (h w : nat)
    (batches : list (t4 * t4)) :
  (1 < b_size cfg)%nat -> (1 < num_features cfg)%nat ->
  (0 < h)%nat -> (0 < w)%nat ->
  batches_shape cfg h w batches ->
  run_clamp_inactive cfg (ControlNorm2D.init cfg) batches ->
  exists outs,
    lin_run cfg (ControlNorm2D.init cfg) batches = Some outs /\
    loop_run cfg (ControlNorm2DLoop.init cfg) batches = Some outs /\
    length outs = length batches.
Proof.
  intros Hb Hc Hh Hw Hs Hcl.
  apply (run_sim cfg h w batches Hb Hc Hh Hw Hs); [|assumption].
  apply sim_init. lia.
Qed.

Lemma linearized_matches_loop_witness :
  exists outs,
    lin_run cfg_w (ControlNorm2D.init cfg_w) [(x_w, g_w)] = Some outs /\
    loop_run cfg_w (ControlNorm2DLoop.init cfg_w) [(x_w, g_w)] = Some outs /\
    length outs = 1%nat.
Proof.
  apply (linearized_matches_loop cfg_w 1 1 [(x_w, g_w)]).
  - cbn. lia.
  - cbn. lia.
  - lia.
  - lia.
  - unfold batches_shape, shape4, shape2. cbn. solve_shape.
  - cbn [run_clamp_inactive]. eval_model. split; [|exact I].
    change (INR 1) with 1. cbn [pow].
    repeat match goal with |- context [sqrt ?a] =>
      first [ rewrite (sqrt_val a (3 / 2)) by lra
            | rewrite (sqrt_val a 2) by lra ] end.
    repeat constructor; unfold Rdiv; lra.
Defined.

(** C1 does not hold for every configuration: with B = 3, C = 2,
    H = W = 1, both decay rates 1/2 and eps = 5/4, a first batch whose second output has second moment
    above 2 makes the linearized backward pass clamp its decay term; both
    runs return, with different gradients for the third sample. *)
Lemma linearized_differs_when_clamped :
  lin_run cfg_x (ControlNorm2D.init cfg_x) [(x_x, g_x)] <> None /\
  loop_run cfg_x (ControlNorm2DLoop.init cfg_x) [(x_x, g_x)] <> None /\
  lin_run cfg_x (ControlNorm2D.init cfg_x) [(x_x, g_x)] <>
  loop_run cfg_x (ControlNorm2DLoop.init cfg_x) [(x_x, g_x)].
Proof.
  split; [eval_model; discriminate|].
  split; [eval_model; discriminate|].
  intros H.
  apply (f_equal (option_map (map (fun og =>
           nth 0 (nth 0 (nth 0 (nth 2 (snd og) []) []) []) 0)))) in H.
  eval_model_in H.
  injection H as H. change (INR 1) with 1 in H. cbn [pow] in H.
  repeat match type of H with context [sqrt ?a] =>
    first [ rewrite (sqrt_val a (3 / 2)) in H by lra
          | rewrite (sqrt_val a 2) in H by lra
          | rewrite (sqrt_val a (23 / 8)) in H by lra ] end.
  repeat match type of H with context [Rmax ?a ?f] =>
    rewrite (Rmax_floor a f) in H by lra end.
  rewrite ?ln_1 in H.
  rewrite ?Rmult_1_r, ?Rmult_0_l, ?Rplus_0_r, ?Rplus_0_l in H.
  rewrite ?exp_plus, ?exp_0 in H. rewrite ?exp_ln in H by lra. lra.
Qed.

(** C2: on a batch of one sample ([mu_prev], [mu_curr] and [mu_stream] of
    shape (1, 2), decay 9/10) [lin_momentum] raises instead of returning the
    pair of trajectories: the result of the convolution, of shape (2, 1, 1),
    is squeezed to one axis and cannot be transposed. *)
Theorem lin_momentum_single_sample_raises :
  lin_momentum [[0; 0]] (mkT [1%nat; 2%nat] [1; 2]) [[0; 0]] (9 / 10)
               [[[1]]] [[9 / 10; 9 / 10]] = None.
Proof. reflexivity. Qed.

(** C3, without the factor on beta: on tensors of shape (B, C, H, W) with
    B and C positive, with a positive floor, and with cached [v_p], [alpha_p], [beta_p]
    related by the recurrence (as they are after construction and after
    every backward call), [lin_crtl] returns the decay term
    alpha_i = max (1 - (1 - abkw) E[out_i^2]) floor, the correlation term
    beta_i = E[grad_i out_i] and the trajectory
    v_i = alpha_i v_(i-1) + beta_i seeded with the last row of [v_p];
    equivalently v_i is the product of alpha_0 .. alpha_i times the seed
    plus the sum of the beta_k times the product of alpha_(k+1) .. alpha_i.
    The factor (1 - abkw) is not applied to beta. *)
Theorem lin_crtl_recurrence (b c h w : nat) (delta out : t4)
    (v_p alpha_p beta_p : mat) (abkw eps : R) :
  (0 < b)%nat -> (0 < c)%nat -> 0 < eps ->
  shape4 b c h w delta -> shape4 b c h w out ->
  ctl_ok b c v_p alpha_p beta_p ->
  exists gd vn al be,
    lin_crtl delta out b c v_p alpha_p beta_p abkw eps = Some (gd, vn, al, be) /\
    forall i j, (i < b)%nat -> (j < c)%nat ->
      ent al i j = lc_alpha abkw eps (INR (h * w)) (plane out) i j /\
      ent be i j = lc_beta (INR (h * w)) (plane delta) (plane out) i j /\
      ent vn i j =
        ent al i j * (if (i =? 0)%nat then ent v_p (b - 1) j
                      else ent vn (i - 1) j) + ent be i j /\
      ent vn i j =
        unrolled (fun k => ent al k j) (fun k => ent be k j) (S i)
                 (ent v_p (b - 1) j).
Proof.
  intros Hb Hc He Hd Ho Hok.
  destruct (ctl_ok_ent _ _ _ _ _ Hok) as (EV & EA & EB).
  destruct Hok as (_ & _ & _ & Hap & Hrec).
  pose proof (lin_crtl_mk b c h w (plane delta) (plane out)
                (ent v_p) (ent alpha_p) (ent beta_p) abkw eps Hb Hc) as HL.
  cbv zeta in HL.
  rewrite <- (shape4_eta _ _ _ _ _ Hd), <- (shape4_eta _ _ _ _ _ Ho),
          <- EV, <- EA, <- EB in HL.
  rewrite HL by (apply (shape4_plane b c); (assumption || lia)).
  clear HL. eexists _, _, _, _. split; [reflexivity|].
  set (al := lc_alpha abkw eps (INR (h * w)) (plane out)).
  set (be := lc_beta (INR (h * w)) (plane delta) (plane out)).
  assert (Hal : forall n j, 0 < al n j).
  { intros n j. unfold al, lc_alpha.
    eapply Rlt_le_trans; [exact He | apply Rmax_r]. }
  assert (Hv : forall i j, (i < b)%nat -> (j < c)%nat ->
            lc_vnew b (cat2 b (ent alpha_p) al) (cat2 b (ent beta_p) be)
                    (ent v_p) i j =
            steps (fun n => al n j) (fun n => be n j) 0 (S i)
                  (ent v_p (b - 1) j)).
  { intros i j Hi Hj. apply lc_vnew_scan; try assumption.
    - intros n Hn. now apply Hrec.
    - intros n Hn. now apply Hap.
    - intros n _. apply Hal. }
  intros i j Hi Hj. rewrite !ent_mk by assumption.
  split; [reflexivity|]. split; [reflexivity|]. split.
  - rewrite Hv by assumption. rewrite steps_S. cbn [Nat.add].
    destruct i as [|i]; cbn [Nat.eqb steps]; [reflexivity|].
    replace (S i - 1)%nat with i by lia.
    rewrite ent_mk by lia. rewrite Hv by lia. reflexivity.
  - rewrite Hv by assumption. rewrite steps_unrolled. unfold unrolled.
    f_equal.
    + f_equal. apply rprod_ext. intros k Hk. now rewrite ent_mk by lia.
    + apply rsum_ext. intros k Hk. rewrite ent_mk by lia. f_equal.
      apply rprod_ext. intros t Ht. now rewrite ent_mk by lia.
Qed.

Lemma lin_crtl_recurrence_witness :
  exists gd vn al be,
    lin_crtl g_w x_w 2 2 (full 2 2 0) (full 2 2 1) (full 2 2 0) (9 / 10)
             backward_eps = Some (gd, vn, al, be) /\
    ent vn 1 0 = ent al 1 0 * ent vn 0 0 + ent be 1 0.
Proof.
  destruct (lin_crtl_recurrence 2 2 1 1 g_w x_w (full 2 2 0) (full 2 2 1)
              (full 2 2 0) (9 / 10) backward_eps)
    as (gd & vn & al & be & HL & H).
  - lia.
  - lia.
  - unfold backward_eps. apply Rinv_0_lt_compat. lra.
  - unfold shape4, shape2. cbn. solve_shape.
  - unfold shape4, shape2. cbn. solve_shape.
  - apply ctl_ok_init.
  - exists gd, vn, al, be. split; [exact HL|].
    destruct (H 1%nat 0%nat) as (_ & _ & Hv & _); [lia | lia |]. exact Hv.
Defined.

(** C3 does not hold with the factor (1 - abkw) on beta: after
    construction, with B = 2, C = 2, H = W = 1 and abkw = 9/10, the first entry of the trajectory returned by
    [lin_crtl] is alpha_0 v_(-1) + beta_0 = 3, not
    alpha_0 v_(-1) + (1 - abkw) beta_0 = 3/10. *)
Lemma v_recurrence_has_no_factor :
  exists gd vn al be,
    lin_crtl g_w x_w 2 2 (full 2 2 0) (full 2 2 1) (full 2 2 0) (9 / 10)
             backward_eps = Some (gd, vn, al, be) /\
    ent vn 0 0 = 3 /\
    ent al 0 0 * ent (full 2 2 0) 1 0 + (1 - 9 / 10) * ent be 0 0 = 3 / 10 /\
    ent vn 0 0 <> ent al 0 0 * ent (full 2 2 0) 1 0 + (1 - 9 / 10) * ent be 0 0.
Proof.
  eexists _, _, _, _. split; [reflexivity|].
  eval_model. change (INR 1) with 1. cbn [pow].
  rewrite !Rmult_0_r.
  repeat match goal with |- context [exp ?a] =>
    replace a with 0 by lra; rewrite exp_0 end.
  repeat split; lra.
Qed.

(** C4: an evaluation-mode forward call returns the state it was given, so
    that a second call returns the same output, and the plane of sample [i]
    and channel [j] of the output is the plane of the input normalized by the
    last row of the mean and variance trajectories (ControlNorm2D), resp. by
    the streaming mean and variance (ControlNorm2DLoop), whatever [i]. *)
Theorem eval_forward_pure (cfg : config) (st : state)
    (ls : ControlNorm2DLoop.state) (x : t4) (n b c h w : nat) :
  (0 < b)%nat -> shape4 n c h w x ->
  shape2 b c (m st) -> shape2 b c (var st) ->
  length (ControlNorm2DLoop.m ls) = c -> length (ControlNorm2DLoop.var ls) = c ->
  (exists out,
     forward cfg false st x = (st, Some (out, None)) /\
     forward cfg false (fst (forward cfg false st x)) x = (st, Some (out, None)) /\
     forall i j, (i < n)%nat -> (j < c)%nat ->
       plane out i j =
       normalize (ent (m st) (b - 1) j) (sqrt (ent (var st) (b - 1) j + eps cfg))
                 (plane x i j)) /\
  (exists out,
     ControlNorm2DLoop.forward cfg false ls x = Some (out, None, ls) /\
     forall i j, (i < n)%nat -> (j < c)%nat ->
       plane out i j =
       normalize (nth j (ControlNorm2DLoop.m ls) 0)
                 (sqrt (nth j (ControlNorm2DLoop.var ls) 0 + eps cfg))
                 (plane x i j)).
Proof.
  intros Hb Hx Hm Hv Hlm Hlv. split.
  - exists (map (fun sample =>
               bcast_c Rdiv (bcast_c Rminus sample (last (m st) []))
                       (map (fun v => sqrt (v + eps cfg)) (last (var st) []))) x).
    split; [reflexivity|]. split; [reflexivity|].
    intros i j Hi Hj.
    rewrite (last_row b c (m st)), (last_row b c (var st)) by assumption.
    rewrite map_mk_vec.
    rewrite (eval_planes n c x _ _ h w Hx).
    now rewrite plane_mk.
  - exists (map (fun sample =>
               bcast_c Rdiv (bcast_c Rminus sample (ControlNorm2DLoop.m ls))
                       (map (fun v => sqrt (v + eps cfg))
                            (ControlNorm2DLoop.var ls))) x).
    split; [reflexivity|].
    intros i j Hi Hj.
    generalize dependent (ControlNorm2DLoop.m ls).
    generalize dependent (ControlNorm2DLoop.var ls).
    intros sv Hsv sm Hsm.
    pose proof (vec_eta c sm Hsm) as Em. pose proof (vec_eta c sv Hsv) as Ev.
    set (fm := fun j => nth j sm 0) in *. set (fv := fun j => nth j sv 0) in *.
    rewrite Em, Ev, map_mk_vec.
    rewrite (eval_planes n c x _ _ h w Hx).
    rewrite plane_mk by assumption.
    now rewrite <- Em, <- Ev.
Qed.

Lemma eval_forward_pure_witness :
  exists out,
    forward cfg_w false (init cfg_w) x_s = (init cfg_w, Some (out, None)) /\
    plane out 3 1 = normalize 0 (sqrt (1 + 5 / 4)) [[2]].
Proof.
  destruct (eval_forward_pure cfg_w (init cfg_w) (ControlNorm2DLoop.init cfg_w)
              x_s 4 2 2 1 1) as [(out & H1 & _ & H2) _].
  - lia.
  - unfold shape4, shape2. cbn. solve_shape.
  - unfold shape2. cbn. solve_shape.
  - unfold shape2. cbn. solve_shape.
  - reflexivity.
  - reflexivity.
  - exists out. split; [exact H1|]. apply (H2 3%nat 1%nat); lia.
Defined.

(** C5: with a forward decay rate in [0, 1], after construction and after
    any number of training-mode forward calls on inputs of the configured
    shape, every entry of the buffers [var] and [var_p] is at least 0. *)
Theorem variance_nonnegative (cfg : config) (st : state) :
  0 <= afwd cfg <= 1 -> (0 < b_size cfg)%nat -> (0 < num_features cfg)%nat ->
  fwd_reachable cfg st ->
  all_ent (fun e => 0 <= e) (var st) /\ all_ent (fun e => 0 <= e) (var_p st).
Proof.
  intros Hr Hb Hc Hst.
  assert (Inv : var_inv cfg st).
  { induction Hst as [|st x h w _ IH Hh Hw Hx].
    - apply var_inv_init.
    - now apply (var_inv_forward cfg st x h w). }
  destruct Inv as (_ & _ & Hv & Hvp & _ & Nv & Nvp).
  split; eapply all_ent_of_ent; eassumption.
Qed.

Lemma variance_nonnegative_witness :
  all_ent (fun e => 0 <= e) (var (fst (forward cfg_w true (init cfg_w) x_w))) /\
  all_ent (fun e => 0 <= e) (var_p (fst (forward cfg_w true (init cfg_w) x_w))).
Proof.
  apply (variance_nonnegative cfg_w).
  - cbn. lra.
  - cbn. lia.
  - cbn. lia.
  - apply (fwd_call cfg_w _ x_w 1 1); [apply fwd_init | lia | lia |].
    unfold shape4, shape2. cbn. solve_shape.
Defined.

(** C6: in every state reached from construction by training-mode forward
    and backward calls, every entry of the tensor whose logarithm [lin_crtl]
    takes in a backward call, the concatenation of [alpha_p] and of the
    fresh decay term, is at least the floor 1e-5 passed by the backward
    pass, hence positive; the default floor of [lin_crtl] is 1e-32. *)
Theorem log_argument_positive (cfg : config) (st : state) (c : ctx) (g : t4)
    (alpha : mat) :
  reachable cfg st ->
  lin_crtl_alpha g (fst c) (b_size cfg) (num_features cfg) (abkw cfg)
                 backward_eps = Some alpha ->
  all_ent (fun a => backward_eps <= a) (alpha_p st ++ alpha) /\
  all_ent (fun a => 0 < a) (alpha_p st ++ alpha) /\
  backward_eps = 1 / 10 ^ 5 /\ lin_crtl_default_eps = 1 / 10 ^ 32.
Proof.
  intros Hst Hal.
  assert (H : all_ent (fun a => backward_eps <= a) (alpha_p st ++ alpha)).
  { apply all_ent_app; [now apply (alpha_p_reachable cfg)|].
    now apply lin_crtl_alpha_floor in Hal. }
  split; [exact H|]. split.
  - eapply all_ent_impl; [|exact H]. intros e He.
    eapply Rlt_le_trans; [apply backward_eps_pos | exact He].
  - unfold backward_eps, lin_crtl_default_eps, Rdiv. now rewrite !Rmult_1_l.
Qed.

Lemma log_argument_positive_witness :
  exists alpha,
    lin_crtl_alpha g_w x_w 2 2 (9 / 10) backward_eps = Some alpha /\
    all_ent (fun a => 0 < a) (alpha_p st_w ++ alpha).
Proof.
  eexists. split; [reflexivity|].
  refine (proj1 (proj2 (log_argument_positive cfg_w st_w (x_w, g_w) g_w _ _ _))).
  - apply reach_backward, reach_forward, reach_init.
  - reflexivity.
Defined.

(** C7: a training-mode forward call that returns assigns [m_p], [var_p],
    [m] and [var], once each, and leaves [u], [u_p], [v_p], [alpha_p] and
    [beta_p] as they were; a backward call that returns assigns [v_p],
    [alpha_p], [beta_p], [u_p] and [u], once each, and leaves [m], [var],
    [m_p] and [var_p] as they were. *)
Theorem buffers_written_once (cfg : config) (st sb : state) (x g : t4) (c : ctx) :
  snd (forward cfg true st x) <> None ->
  snd (normalizer_backward cfg sb c g) <> None ->
  (exists out cx l,
     forward_log cfg (ensure_consts cfg st) x = Some (out, cx, l) /\
     fst (forward cfg true st x) = run_writes l (ensure_consts cfg st) /\
     map fst l = [M_P; VAR_P; M; VAR]) /\
  (forall b, In b [U; U_P; V_P; ALPHA_P; BETA_P] ->
     read b (fst (forward cfg true st x)) = read b st) /\
  (exists l gi,
     backward_log cfg sb c g = (l, Some gi) /\
     fst (normalizer_backward cfg sb c g) = run_writes l sb /\
     map fst l = [V_P; ALPHA_P; BETA_P; U_P; U]) /\
  (forall b, In b [M; VAR; M_P; VAR_P] ->
     read b (fst (normalizer_backward cfg sb c g)) = read b sb).
Proof.
  intros Hf Hbk.
  split; [|split; [intros b; apply forward_frame|
           split; [|intros b; apply backward_frame]]].
  - unfold forward, normalizer_forward in *.
    destruct (forward_log cfg (ensure_consts cfg st) x) as [[[out cx] l]|] eqn:E.
    + exists out, cx, l. split; [reflexivity|]. split; [reflexivity|].
      exact (forward_log_names _ _ _ _ _ _ E).
    + now elim Hf.
  - unfold normalizer_backward in *.
    destruct (backward_log cfg sb c g) as [l r] eqn:E. cbn [fst snd] in *.
    destruct (backward_log_cases _ _ _ _ _ _ E)
      as [[_ ->] | (gd & vn & al & be & _ & [[_ ->] | (ut & fu & gi & -> & ->)])];
      try now elim Hbk.
    eexists _, gi. split; [reflexivity|]. split; reflexivity.
Qed.

Lemma buffers_written_once_witness :
  (forall b, In b [U; U_P; V_P; ALPHA_P; BETA_P] ->
     read b (fst (forward cfg_w true (init cfg_w) x_w)) = read b (init cfg_w)) /\
  (forall b, In b [M; VAR; M_P; VAR_P] ->
     read b (fst (normalizer_backward cfg_w
                    (fst (forward cfg_w true (init cfg_w) x_w)) (x_w, g_w) g_w)) =
     read b (fst (forward cfg_w true (init cfg_w) x_w))).
Proof.
  destruct (buffers_written_once cfg_w (init cfg_w)
              (fst (forward cfg_w true (init cfg_w) x_w)) x_w g_w (x_w, g_w))
    as (_ & H1 & _ & H2).
  - eval_model. discriminate.
  - eval_model. discriminate.
  - split; assumption.
Defined.

(** C8: the scenario C = 2, B = 4, H = W = 1, both decay rates 0.9,
    eps = 1e-5, a first training-mode batch of four samples with channel
    values (1, 2).  The stale mean of sample 0 is the seed (0, 0); the fresh
    mean of sample i, which the call stores in [m], is
    (1 - 0.9^(i+1)) (1, 2); the output of sample 0, channel 0 is
    (1 - 0) / sqrt (1 + 1e-5); ControlNorm2DLoop returns the same output. *)
Theorem scenario_constant_batch :
  let st0 := init cfg_s in
  let k := make_consts cfg_s in
  exists stale fresh out c st' lc ls',
    lin_momentum (m_p st0) (fst (moments x_s)) (m st0) (afwd cfg_s)
                 (af_pow k) (af_batch k) = Some (stale, fresh) /\
    nth 0 stale [] = [0; 0] /\
    forward cfg_s true st0 x_s = (st', Some (out, Some c)) /\
    m st' = fresh /\
    (forall i, (i < 4)%nat ->
       ent fresh i 0 = (1 - (9 / 10) ^ (i + 1)) * 1 /\
       ent fresh i 1 = (1 - (9 / 10) ^ (i + 1)) * 2) /\
    plane out 0 0 = [[(1 - 0) / sqrt (1 + / 10 ^ 5)]] /\
    ControlNorm2DLoop.forward cfg_s true (ControlNorm2DLoop.init cfg_s) x_s =
      Some (out, Some lc, ls').
Proof.
  intros st0 k.
  assert (Hx : shape4 (b_size cfg_s) (num_features cfg_s) 1 1 x_s)
    by (unfold shape4, shape2; cbn; solve_shape).
  destruct (forward_sim cfg_s 1 1 st0 (ControlNorm2DLoop.init cfg_s) x_s)
    as (out & sc & st' & ls' & HF & HL & _); try assumption.
  { cbn. lia. }
  { cbn. lia. }
  { apply sim_init. cbn. lia. }
  eexists _, _, out, (out, unsq2 sc), st', (out, sc), ls'.
  split; [reflexivity|].
  split; [reflexivity|].
  split; [unfold forward; now rewrite HF|].
  assert (Hm : m st' = m (fst (normalizer_forward cfg_s st0 x_s)))
    by now rewrite HF.
  assert (Ho : plane out 0 0 =
               plane (match snd (normalizer_forward cfg_s st0 x_s) with
                      | Some (o, _) => o | None => [] end) 0 0)
    by now rewrite HF.
  split; [exact Hm|]. split; [|split].
  - intros i Hi. eval_model. change (INR 1) with 1. cbn [pow].
    destruct i as [|[|[|[|i]]]]; [| | | |lia]; cbn [nth Nat.add pow]; split; lra.
  - rewrite Ho. eval_model. cbn [pow]. reflexivity.
  - unfold ControlNorm2DLoop.forward. now rewrite HL.
Qed.

(** C9: with [b_size = 1], which the constructor accepts, the training-mode
    forward call on an input of the configured shape (1, 2, 1, 1) raises and
    returns no tensor. *)
Theorem forward_single_sample_raises :
  construct cfg_1 = Some (init cfg_1) /\
  shape4 (b_size cfg_1) (num_features cfg_1) 1 1 x_1 /\
  snd (forward cfg_1 true (init cfg_1) x_1) = None.
Proof.
  split; [reflexivity|]. split; [|reflexivity].
  unfold shape4, shape2. cbn. repeat first [split | constructor | reflexivity].
Qed.

(** C10: on an input of shape (B, C, H, W), [moments] returns the spatial
    means and the biased variances; the means form a tensor of shape (B, C)
    when B > 1 and C > 1.  When B = 1 or C = 1 the squeezed mean has not
    the shape (B, C), and the training-mode forward call raises before it
    assigns any buffer. *)
Theorem moments_shape (cfg : config) (st : state) (b c h w : nat) (x : t4) :
  (0 < b)%nat -> (0 < c)%nat -> shape4 b c h w x ->
  snd (moments x) = mk_mat b c (var_of (INR (h * w)) (plane x)) /\
  data (fst (moments x)) = concat (mk_mat b c (mean_of (INR (h * w)) (plane x))) /\
  ((1 < b)%nat /\ (1 < c)%nat -> shape (fst (moments x)) = [b; c]) /\
  (b = 1%nat \/ c = 1%nat ->
     shape (fst (moments x)) <> [b; c] /\
     snd (forward cfg true st x) = None /\
     forall buf, read buf (fst (forward cfg true st x)) = read buf st).
Proof.
  intros Hb Hc Hx. rewrite (moments_of b c h w) by assumption. cbn [fst snd].
  split; [reflexivity|]. split; [reflexivity|]. split.
  - intros [Hb1 Hc1]. unfold squeeze. cbn [shape filter].
    destruct (Nat.eqb_spec b 1), (Nat.eqb_spec c 1); try lia. reflexivity.
  - intros Hbc.
    destruct (moments_rank b c h w x Hb Hc Hx Hbc) as [Hs _].
    rewrite (moments_of b c h w) in Hs by assumption. cbn [fst] in Hs.
    destruct (forward_raises cfg st b c h w x Hb Hc Hx Hbc) as [Hr Hf].
    split; [exact Hs|]. unfold forward.
    destruct (normalizer_forward cfg st x) as [st' r]. cbn [fst snd] in *.
    subst r. split; [reflexivity | exact Hf].
Qed.

Lemma moments_shape_witness :
  shape (fst (moments x_w)) = [2%nat; 2%nat] /\
  shape (fst (moments x_1)) <> [1%nat; 2%nat] /\
  snd (forward cfg_1 true (init cfg_1) x_1) = None.
Proof.
  assert (Hw : shape4 2 2 1 1 x_w)
    by (unfold shape4, shape2; cbn; repeat first [split | constructor | reflexivity]).
  assert (H1 : shape4 1 2 1 1 x_1)
    by (unfold shape4, shape2; cbn; repeat first [split | constructor | reflexivity]).
  destruct (moments_shape cfg_w (init cfg_w) 2 2 1 1 x_w
              ltac:(lia) ltac:(lia) Hw) as (_ & _ & Hs & _).
  destruct (moments_shape cfg_1 (init cfg_1) 1 2 1 1 x_1
              ltac:(lia) ltac:(lia) H1) as (_ & _ & _ & Hr).
  split; [apply Hs; lia|].
  destruct (Hr (or_introl eq_refl)) as (Hn & Hf & _). now split.
Defined.
